(** * sc_loc_poc: key-value store, validator, merge engine, backup manager

    A shallow embedding of [src/sc_loc_poc.py] and the properties of its
    core: [INIParser], [TranslationValidator], [TranslationMerger] and
    [BackupManager].

    Conventions of the embedding.
    - A Python [str] is a list of Unicode code points ([char := N]); a
      [bytes] object is a list of octets, also held in [N].
    - A Python [dict] is an association list in insertion order; assigning
      to a present key keeps its position, assigning to a new key appends.
    - A Python [set] of strings is a duplicate-free list; only membership
      is ever observed, except by [repr], which is a parameter.
    - An exception is a [Raise] in the [result] type.
    - The console ([print]) encodes as UTF-8 and is strict; what is
      printed is not recorded, only whether printing raises.  What
      [merge] reports there is kept in its outcome record. *)

From Stdlib Require Import String Ascii DecimalString.
From Stdlib Require Import Arith NArith ZArith QArith Bool Lia Zify.
From Stdlib Require Import List Sorted Permutation.
Import ListNotations.

Local Open Scope N_scope.
Local Open Scope list_scope.

(* ================================================================== *)
(** * Part I: the embedding *)
(* ================================================================== *)

(** ** Characters, strings, bytes *)

Definition char := N.
Definition str := list char.
Definition bytes := list N.

(** An ASCII literal as a Python string. *)
Definition py (s : string) : str :=
  List.map N_of_ascii (list_ascii_of_string s).

Definition LF : char := 10.
Definition CR : char := 13.
Definition EQUALS : char := 61.      (* '=' *)
Definition HASH : char := 35.        (* '#' *)
Definition SEMICOLON : char := 59.   (* ';' *)
Definition LBRACE : char := 123.     (* '{' *)
Definition RBRACE : char := 125.     (* '}' *)
Definition PERCENT : char := 37.     (* '%' *)
Definition BACKSLASH : char := 92.
Definition BOM : char := 0xFEFF.

Fixpoint str_eqb (a b : str) : bool :=
  match a, b with
  | [], [] => true
  | x :: a', y :: b' => (x =? y) && str_eqb a' b'
  | _, _ => false
  end.

(** [c in s] for a one-character needle. *)
Definition contains (c : char) (s : str) : bool :=
  existsb (N.eqb c) s.

(** [s.startswith(prefix)] *)
Fixpoint startswith (s prefix : str) : bool :=
  match prefix, s with
  | [], _ => true
  | p :: prefix', c :: s' => (c =? p) && startswith s' prefix'
  | _ :: _, [] => false
  end.

(** [needle in s] for a string needle. *)
Fixpoint str_in (needle s : str) : bool :=
  startswith s needle ||
  match s with
  | [] => false
  | _ :: s' => str_in needle s'
  end.

(** [str.isspace] on one code point: the code points whose bidirectional
    class is WS, B or S, or whose category is Zs. *)
Definition isspace (c : char) : bool :=
  ((0x09 <=? c) && (c <=? 0x0D)) ||
  ((0x1C <=? c) && (c <=? 0x20)) ||
  (c =? 0x85) || (c =? 0xA0) || (c =? 0x1680) ||
  ((0x2000 <=? c) && (c <=? 0x200A)) ||
  (c =? 0x2028) || (c =? 0x2029) || (c =? 0x202F) ||
  (c =? 0x205F) || (c =? 0x3000).

Fixpoint lstrip (s : str) : str :=
  match s with
  | [] => []
  | c :: s' => if isspace c then lstrip s' else s
  end.

Definition rstrip (s : str) : str := rev (lstrip (rev s)).

(** [s.strip()] *)
Definition strip (s : str) : str := rstrip (lstrip s).

(** [s.partition(sep)] for a one-character separator that occurs in [s]:
    the text before the first occurrence and the text after it.  When the
    separator does not occur the result is [(s, [])], as in Python. *)
Fixpoint partition (sep : char) (s : str) : str * str :=
  match s with
  | [] => ([], [])
  | c :: s' =>
      if c =? sep then ([], s')
      else let '(a, b) := partition sep s' in (c :: a, b)
  end.

(** ** Exceptions *)

Inductive exn : Type :=
| UnicodeDecodeError
| UnicodeEncodeError.

Inductive result (A : Type) : Type :=
| Ok (a : A)
| Raise (e : exn).
Arguments Ok {A} a.
Arguments Raise {A} e.

Definition bind {A B : Type} (r : result A) (f : A -> result B) : result B :=
  match r with
  | Ok a => f a
  | Raise e => Raise e
  end.

Notation "x <- r ;; k" := (bind r (fun x => k))
  (at level 61, r at next level, right associativity).

(** ** The UTF-8 codec used by [open(..., encoding=...)] *)

Definition is_surrogate (c : char) : bool := (0xD800 <=? c) && (c <=? 0xDFFF).

(** [chr.encode('utf-8')] with the default strict error handler: a
    surrogate code point raises. *)
Definition utf8_encode_char (c : char) : result bytes :=
  if c <? 0x80 then Ok [c]
  else if c <? 0x800 then Ok [0xC0 + c / 64; 0x80 + c mod 64]
  else if c <? 0x10000 then
    if is_surrogate c then Raise UnicodeEncodeError
    else Ok [0xE0 + c / 4096; 0x80 + (c / 64) mod 64; 0x80 + c mod 64]
  else
    Ok [0xF0 + c / 262144; 0x80 + (c / 4096) mod 64;
        0x80 + (c / 64) mod 64; 0x80 + c mod 64].

Fixpoint utf8_encode (s : str) : result bytes :=
  match s with
  | [] => Ok []
  | c :: s' =>
      b <- utf8_encode_char c ;;
      bs <- utf8_encode s' ;;
      Ok (b ++ bs)
  end.

Definition is_cont (b : N) : bool := (0x80 <=? b) && (b <=? 0xBF).

(** Strict UTF-8 decoding: truncated, overlong, surrogate and out-of-range
    sequences raise. *)
Fixpoint utf8_decode (bs : bytes) : result str :=
  match bs with
  | [] => Ok []
  | b0 :: r0 =>
      if b0 <? 0x80 then
        s <- utf8_decode r0 ;; Ok (b0 :: s)
      else if (0xC2 <=? b0) && (b0 <=? 0xDF) then
        match r0 with
        | b1 :: r1 =>
            if is_cont b1 then
              s <- utf8_decode r1 ;;
              Ok (((b0 - 0xC0) * 64 + (b1 - 0x80)) :: s)
            else Raise UnicodeDecodeError
        | _ => Raise UnicodeDecodeError
        end
      else if (0xE0 <=? b0) && (b0 <=? 0xEF) then
        match r0 with
        | b1 :: b2 :: r2 =>
            let c := (b0 - 0xE0) * 4096 + (b1 - 0x80) * 64 + (b2 - 0x80) in
            if is_cont b1 && is_cont b2 && (0x800 <=? c)
               && negb (is_surrogate c) then
              s <- utf8_decode r2 ;; Ok (c :: s)
            else Raise UnicodeDecodeError
        | _ => Raise UnicodeDecodeError
        end
      else if (0xF0 <=? b0) && (b0 <=? 0xF4) then
        match r0 with
        | b1 :: b2 :: b3 :: r3 =>
            let c := (b0 - 0xF0) * 262144 + (b1 - 0x80) * 4096
                     + (b2 - 0x80) * 64 + (b3 - 0x80) in
            if is_cont b1 && is_cont b2 && is_cont b3
               && (0x10000 <=? c) && (c <=? 0x10FFFF) then
              s <- utf8_decode r3 ;; Ok (c :: s)
            else Raise UnicodeDecodeError
        | _ => Raise UnicodeDecodeError
        end
      else Raise UnicodeDecodeError
  end.

(** [encoding='utf-8-sig'] on reading: a leading byte-order mark
    (EF BB BF) is dropped, the rest is decoded as UTF-8.  A file that
    consists of the first one or two bytes of the mark only is read as
    the empty text: the decoder is still waiting for the rest of the
    mark when the file ends. *)
Definition utf8_sig_decode (bs : bytes) : result str :=
  match bs with
  | b0 :: b1 :: b2 :: rest =>
      if (b0 =? 0xEF) && (b1 =? 0xBB) && (b2 =? 0xBF)
      then utf8_decode rest else utf8_decode bs
  | [b0; b1] =>
      if (b0 =? 0xEF) && (b1 =? 0xBB) then Ok [] else utf8_decode bs
  | [b0] => if b0 =? 0xEF then Ok [] else utf8_decode bs
  | [] => utf8_decode bs
  end.

(** ** The console *)

(** [print(line)] on a console that encodes as UTF-8 with the default
    strict error handler: a line holding a surrogate code point raises
    UnicodeEncodeError.  What is printed is not recorded. *)
Definition print (line : str) : result unit :=
  encoded <- utf8_encode line ;; Ok tt.

(** ** Text mode newline handling *)

(** Reading with the default [newline=None]: "\r\n" and a lone "\r" are
    both delivered as "\n". *)
Fixpoint universal_newlines (s : str) : str :=
  match s with
  | [] => []
  | c :: s' =>
      if c =? CR then
        match s' with
        | c' :: s'' =>
            if c' =? LF then LF :: universal_newlines s''
            else LF :: universal_newlines s'
        | [] => [LF]
        end
      else c :: universal_newlines s'
  end.

(** Iterating a text file: the lines, each with its terminating "\n"
    (the last one may lack it). *)
Fixpoint readlines (s : str) : list str :=
  match s with
  | [] => []
  | c :: s' =>
      if c =? LF then [LF] :: readlines s'
      else match readlines s' with
           | [] => [[c]]
           | l :: ls => (c :: l) :: ls
           end
  end.

(** Writing with [newline='\r\n']: every "\n" written becomes "\r\n". *)
Definition translate_crlf (s : str) : str :=
  flat_map (fun c => if c =? LF then [CR; LF] else [c]) s.

(** ** Python containers *)

(** [dict[str, str]], in insertion order. *)
Definition dict := list (str * str).

Fixpoint dict_get (d : dict) (k : str) : option str :=
  match d with
  | [] => None
  | (k', v) :: d' => if str_eqb k' k then Some v else dict_get d' k
  end.

(** [k in d] *)
Definition dict_contains (d : dict) (k : str) : bool :=
  match dict_get d k with Some _ => true | None => false end.

(** [d.get(k, default)] *)
Definition dict_get_default (d : dict) (k default : str) : str :=
  match dict_get d k with Some v => v | None => default end.

(** [d[k] = v] *)
Fixpoint dict_set (d : dict) (k v : str) : dict :=
  match d with
  | [] => [(k, v)]
  | (k', v') :: d' =>
      if str_eqb k' k then (k', v) :: d' else (k', v') :: dict_set d' k v
  end.

Definition dict_keys (d : dict) : list str := List.map fst d.

(** [set[str]] *)
Definition set_mem (x : str) (s : list str) : bool := existsb (str_eqb x) s.

(** [set(l)] *)
Fixpoint set_of (l : list str) : list str :=
  match l with
  | [] => []
  | x :: l' => if set_mem x l' then set_of l' else x :: set_of l'
  end.

(** [a - b] *)
Definition set_diff (a b : list str) : list str :=
  filter (fun x => negb (set_mem x b)) a.

(** [a == b] *)
Definition set_eqb (a b : list str) : bool :=
  forallb (fun x => set_mem x b) a && forallb (fun x => set_mem x a) b.

(** Truthiness of a container: [if xs:] *)
Definition truthy {A : Type} (xs : list A) : bool :=
  match xs with [] => false | _ :: _ => true end.

(** What the embedding takes from the Python runtime as given: the text of
    [repr] of a set of strings (its element order depends on the hash
    seed) and the text of a [UnicodeEncodeError] raised by encoding. *)
Class PyRuntime : Type := {
  set_repr : list str -> str;
  encode_error_str : str -> str
}.

(** [str(n)] for a non-negative integer. *)
Definition str_of_nat (n : nat) : str :=
  py (NilZero.string_of_uint (Nat.to_uint n)).

(** ** A backtracking matcher for the fragment of [re] the program uses *)

Module Re.

(** One-character classes. *)
Inductive cset : Type :=
| Lit (c : char)              (* a literal *)
| NotLit (c : char)           (* [^c]; also matches a newline *)
| OneOf (cs : list char).     (* [cs] *)

Inductive re : Type :=
| One (cs : cset)
| Many1 (cs : cset)           (* cs+, greedy *)
| Seq (a b : re)
| Alt (a b : re).

Definition cset_mem (cs : cset) (c : char) : bool :=
  match cs with
  | Lit x => c =? x
  | NotLit x => negb (c =? x)
  | OneOf xs => existsb (N.eqb c) xs
  end.

(** Length of the longest prefix inside the class. *)
Fixpoint span (cs : cset) (s : str) : nat :=
  match s with
  | c :: s' => if cset_mem cs c then S (span cs s') else O
  | [] => O
  end.

(** Greedy repetition: try the continuation after [n] characters, then
    after [n-1], ... down to one. *)
Fixpoint backtrack (n : nat) (s : str) (k : str -> option str)
  : option str :=
  match n with
  | O => None
  | S n' =>
      match k (skipn n s) with
      | Some r => Some r
      | None => backtrack n' s k
      end
  end.

(** [m r s k]: match [r] at the head of [s] and hand the remaining text
    to [k]; the answer is the text left after the whole match. *)
Fixpoint m (r : re) (s : str) (k : str -> option str) : option str :=
  match r with
  | One cs =>
      match s with
      | c :: s' => if cset_mem cs c then k s' else None
      | [] => None
      end
  | Many1 cs => backtrack (span cs s) s k
  | Seq a b => m a s (fun s' => m b s' k)
  | Alt a b =>
      match m a s k with
      | Some rest => Some rest
      | None => m b s k
      end
  end.

(** [scan r s skip]: the matches of [r] in [s], left to right and not
    overlapping; [skip] counts the characters of the current match
    that are still to be passed over. *)
Fixpoint scan (r : re) (s : str) (skip : nat) : list str :=
  match s with
  | [] => []
  | _ :: s' =>
      match skip with
      | S n => scan r s' n
      | O =>
          match m r s (@Some str) with
          | Some rest =>
              let len := (length s - length rest)%nat in
              firstn len s :: scan r s' (len - 1)
          | None => scan r s' O
          end
      end
  end.

(** [re.findall(r, s)] for a pattern without groups. *)
Definition findall (r : re) (s : str) : list str := scan r s O.

End Re.

(** ** Data model *)

Inductive ValidationLevel : Type := ERROR | WARNING | INFO.

Module ValidationResult.
Record t : Type := mk {
  level : ValidationLevel;
  message : str;
  key : option str
}.
End ValidationResult.

Module Translation.
Record t : Type := mk {
  key : str;
  original : str;
  translated : str;
  category : str;
  comment : str
}.
End Translation.

(** ** INIParser *)

Module INIParser.

(** The body of the [for line in f] loop. *)
Definition parse_line (data : dict) (line : str) : dict :=
  let line := strip line in
  if negb (truthy line) || startswith line [HASH] || startswith line [SEMICOLON]
  then data
  else if contains EQUALS line then
    let '(key, value) := partition EQUALS line in
    let key := strip key in
    let value := strip value in
    if truthy key then dict_set data key value else data
  else data.

(** The loop over the decoded text of the file. *)
Definition parse_text (text : str) : dict :=
  fold_left parse_line (readlines (universal_newlines text)) [].

(** [INIParser.parse], on the content of the file at [file_path]. *)
Definition parse (file : bytes) : result dict :=
  text <- utf8_sig_decode file ;;
  Ok (parse_text text).

(** The text handed to [f.write], one call per item. *)
Definition render (data : dict) : str :=
  flat_map (fun '(key, value) => key ++ [EQUALS] ++ value ++ [LF]) data.

(** [INIParser.write]: the content of the file it leaves at
    [file_path]. *)
Definition write (data : dict) : result bytes :=
  utf8_encode (translate_crlf (render data)).

End INIParser.

(** ** TranslationValidator *)

Module TranslationValidator.
Section WithRuntime.
Context {rt : PyRuntime}.

(** The pattern [\{[^}]+\}|%[sd]]. *)
Definition placeholder : Re.re :=
  Re.Alt
    (Re.Seq (Re.One (Re.Lit LBRACE))
            (Re.Seq (Re.Many1 (Re.NotLit RBRACE)) (Re.One (Re.Lit RBRACE))))
    (Re.Seq (Re.One (Re.Lit PERCENT)) (Re.One (Re.OneOf [115; 100]))).

Definition _check_variables (trans : Translation.t) (original : str)
  : list ValidationResult.t :=
  let results := [] in
  let original_vars := set_of (Re.findall placeholder original) in
  let translated_vars :=
    set_of (Re.findall placeholder (Translation.translated trans)) in
  if negb (set_eqb original_vars translated_vars) then
    let missing := set_diff original_vars translated_vars in
    let extra := set_diff translated_vars original_vars in
    let msg := py "Variable mismatch in '" ++ Translation.key trans ++ py "'" in
    let msg :=
      if truthy missing
      then msg ++ [LF] ++ py "  Missing: " ++ set_repr missing else msg in
    let msg :=
      if truthy extra
      then msg ++ [LF] ++ py "  Extra: " ++ set_repr extra else msg in
    results ++ [ValidationResult.mk ERROR msg (Some (Translation.key trans))]
  else results.

(** [n > m * 1.5] for two lengths.  The product is a float; it is exact
    whenever [3 * m < 2^53], which holds for the length of any string
    that fits in memory, and Python compares an int with a float
    exactly.  The comparison is therefore the one of rationals. *)
Definition gt_times_1_5 (n m : nat) : bool :=
  negb (Qle_bool (inject_Z (Z.of_nat n))
                 (inject_Z (Z.of_nat m) * 1.5)%Q).

Definition _check_length (trans : Translation.t) (original : str)
  : list ValidationResult.t :=
  let results := [] in
  if gt_times_1_5 (length (Translation.translated trans)) (length original)
  then
    results ++
    [ValidationResult.mk WARNING
       (py "'" ++ Translation.key trans ++ py "' is much longer ("
        ++ str_of_nat (length (Translation.translated trans))
        ++ py " vs " ++ str_of_nat (length original)
        ++ py " chars) - may not fit in UI")
       (Some (Translation.key trans))]
  else results.

Definition _check_special_chars (trans : Translation.t)
  : list ValidationResult.t :=
  let results := [] in
  if str_in [BACKSLASH; 110] (Translation.translated trans)
     || str_in [LF] (Translation.translated trans)
  then
    results ++
    [ValidationResult.mk INFO
       (py "'" ++ Translation.key trans
        ++ py "' contains newlines - verify formatting")
       (Some (Translation.key trans))]
  else results.

Definition _check_encoding (trans : Translation.t)
  : list ValidationResult.t :=
  let results := [] in
  match utf8_encode (Translation.translated trans) with
  | Ok _ => results
  | Raise _ =>
      results ++
      [ValidationResult.mk ERROR
         (py "'" ++ Translation.key trans
          ++ py "' contains character that can't be encoded: "
          ++ encode_error_str (Translation.translated trans))
         (Some (Translation.key trans))]
  end.

Definition validate (translation : Translation.t) (original_value : str)
  : list ValidationResult.t :=
  let results := [] in
  let results := results ++ _check_variables translation original_value in
  let results := results ++ _check_length translation original_value in
  let results := results ++ _check_special_chars translation in
  let results := results ++ _check_encoding translation in
  results.

End WithRuntime.
End TranslationValidator.

(** ** TranslationMerger *)

Module TranslationMerger.
Section WithRuntime.
Context {rt : PyRuntime}.

(** The state of the apply loop: [merged_data], [applied],
    [not_found]. *)
Definition apply_state : Type := (dict * nat * list str)%type.

(** The body of the apply loop. *)
Definition apply_one (st : apply_state) (trans : Translation.t)
  : apply_state :=
  let '(merged_data, applied, not_found) := st in
  if dict_contains merged_data (Translation.key trans) then
    (dict_set merged_data (Translation.key trans)
              (Translation.translated trans),
     (applied + 1)%nat, not_found)
  else
    (merged_data, applied, not_found ++ [Translation.key trans]).

(** The validation loop. *)
Definition validate_all (source_data : dict)
           (translations : list Translation.t)
  : list ValidationResult.t :=
  fold_left
    (fun all_validation_results trans =>
       let original :=
         dict_get_default source_data (Translation.key trans) [] in
       let results := TranslationValidator.validate trans original in
       all_validation_results ++ results)
    translations [].

(** What one call of [merge] leaves behind: the returned pair, the two
    counters it reports on the console, and the content of
    [output_file]. *)
Record outcome : Type := mk_outcome {
  merged_data : dict;
  validation_results : list ValidationResult.t;
  applied : nat;
  not_found : list str;
  output_file : bytes
}.

(** The loop that prints the first keys not found. *)
Fixpoint print_keys (keys : list str) : result unit :=
  match keys with
  | [] => Ok tt
  | key :: rest =>
      printed <- print (py "   - " ++ key) ;;
      print_keys rest
  end.

(** [merge], on the content of [source_file].  Of the lines it prints,
    those that show a key not found are modelled; the others hold fixed
    text, counts and the names of the two files, which are taken to be
    printable. *)
Definition merge (source_file : bytes) (translations : list Translation.t)
           (validate : bool) : result outcome :=
  source_data <- INIParser.parse source_file ;;
  let all_validation_results :=
    if validate then validate_all source_data translations else [] in
  let '(merged_data, applied, not_found) :=
    fold_left apply_one translations (source_data, O, []) in
  reported <-
    (if truthy not_found then print_keys (firstn 5 not_found) else Ok tt) ;;
  written <- INIParser.write merged_data ;;
  Ok (mk_outcome merged_data all_validation_results applied not_found
                 written).

End WithRuntime.
End TranslationMerger.

(** ** BackupManager *)

Module BackupManager.

(** An entry of the backup directory. *)
Record entry : Type := mk_entry {
  name : str;
  st_mtime : N;
  content : bytes
}.

(** The backup directory, in the order the file system lists it. *)
Definition directory := list entry.

(** The file a backup is taken of: [file_path.stem], [file_path.suffix]
    and, when the file exists, its modification time and content. *)
Record source : Type := mk_source {
  stem : str;
  suffix : str;
  stat : option (N * bytes)
}.

(** [shutil.copy2(file_path, backup_dir / backup_name)]: content and
    modification time are those of the copied file; an entry of that
    name is replaced. *)
Fixpoint copy2 (dir : directory) (backup_name : str) (mtime : N)
         (data : bytes) : directory :=
  match dir with
  | [] => [mk_entry backup_name mtime data]
  | e :: dir' =>
      if str_eqb (name e) backup_name
      then mk_entry backup_name mtime data :: dir'
      else e :: copy2 dir' backup_name mtime data
  end.

(** [backup_dir.glob(f"{file_stem}_*")] for a stem without the glob
    wildcards '*', '?' and '[': the pattern then matches the names that
    begin with the stem and an underscore, compared character by
    character.  A stem with a wildcard in it matches other names; the
    properties of the pruning are stated for stems without
    ([glob_literal]). *)
Definition glob_stem (dir : directory) (file_stem : str) : list entry :=
  filter (fun e => startswith (name e) (file_stem ++ py "_")) dir.

(** [sorted(..., key=st_mtime, reverse=True)]: stable, descending. *)
Fixpoint insert_desc (e : entry) (sorted : list entry) : list entry :=
  match sorted with
  | [] => [e]
  | e' :: rest =>
      if st_mtime e' <=? st_mtime e then e :: sorted
      else e' :: insert_desc e rest
  end.

Definition sorted_desc (l : list entry) : list entry :=
  fold_right insert_desc [] l.

(** [p.unlink()] *)
Definition unlink (dir : directory) (p : str) : directory :=
  filter (fun e => negb (str_eqb (name e) p)) dir.

Definition _cleanup_old_backups (dir : directory) (file_stem : str)
           (keep : nat) : directory :=
  let backups := sorted_desc (glob_stem dir file_stem) in
  fold_left (fun d old_backup => unlink d (name old_backup))
            (skipn keep backups) dir.

(** [create_backup]; [timestamp] is
    [datetime.now().strftime("%Y%m%d_%H%M%S")] at the call. *)
Definition create_backup (dir : directory) (file_path : source)
           (timestamp : str) : directory * option str :=
  match stat file_path with
  | None => (dir, None)
  | Some (mtime, data) =>
      let backup_name :=
        stem file_path ++ py "_" ++ timestamp ++ suffix file_path in
      let dir := copy2 dir backup_name mtime data in
      let dir := _cleanup_old_backups dir (stem file_path) 5 in
      (dir, Some backup_name)
  end.

(** [list_backups] *)
Definition list_backups (dir : directory) : list entry :=
  sorted_desc dir.

End BackupManager.

(** ** Vocabulary of the statements *)

(** A runtime for closed examples: [repr] of a set lists its elements in
    the order of the list, between braces. *)
Definition sample_runtime : PyRuntime := {|
  set_repr := fun xs =>
    py "{" ++ flat_map (fun x => py "'" ++ x ++ py "', ") xs ++ py "}";
  encode_error_str := fun _ => py "surrogates not allowed"
|}.

(** The words a pattern denotes. *)
Inductive re_matches : Re.re -> str -> Prop :=
| matches_one (cs : Re.cset) (c : char) :
    Re.cset_mem cs c = true -> re_matches (Re.One cs) [c]
| matches_many1 (cs : Re.cset) (w : str) :
    w <> [] -> forallb (Re.cset_mem cs) w = true ->
    re_matches (Re.Many1 cs) w
| matches_seq (a b : Re.re) (w1 w2 : str) :
    re_matches a w1 -> re_matches b w2 -> re_matches (Re.Seq a b) (w1 ++ w2)
| matches_alt_l (a b : Re.re) (w : str) :
    re_matches a w -> re_matches (Re.Alt a b) w
| matches_alt_r (a b : Re.re) (w : str) :
    re_matches b w -> re_matches (Re.Alt a b) w.

(** The shape of a placeholder token: a brace pair around at least one
    character other than '}', or one of the directives %s and %d. *)
Definition placeholder_shape (t : str) : Prop :=
  (exists body : str,
      body <> [] /\ ~ In RBRACE body /\ t = LBRACE :: body ++ [RBRACE]) \/
  t = py "%s" \/ t = py "%d".

(** The last record of [translations] for the key [k]. *)
Definition last_translation (translations : list Translation.t) (k : str)
  : option Translation.t :=
  find (fun t => str_eqb (Translation.key t) k) (rev translations).

(** The source map with every value replaced by the text of the last
    translation of its key, when there is one. *)
Definition overlay (source_data : dict) (translations : list Translation.t)
  : dict :=
  List.map
    (fun '(k, v) =>
       (k, match last_translation translations k with
           | Some t => Translation.translated t
           | None => v
           end))
    source_data.


(** What one line of the source file contributes, in the words of the
    file format: nothing for a blank line, a comment, a line without '='
    or a line with an empty key; otherwise the trimmed key and value on
    either side of the first '='. *)
Inductive line_entry : str -> option (str * str) -> Prop :=
| line_blank (l : str) :
    strip l = [] -> line_entry l None
| line_comment (l : str) (c : char) (rest : str) :
    strip l = c :: rest -> c = HASH \/ c = SEMICOLON -> line_entry l None
| line_no_equals (l : str) :
    ~ In EQUALS (strip l) -> line_entry l None
| line_empty_key (l a b : str) :
    strip l = a ++ EQUALS :: b -> ~ In EQUALS a -> strip a = [] ->
    line_entry l None
| line_pair (l a b : str) :
    strip l = a ++ EQUALS :: b -> ~ In EQUALS a -> strip a <> [] ->
    startswith (strip l) [HASH] = false ->
    startswith (strip l) [SEMICOLON] = false ->
    line_entry l (Some (strip a, strip b)).

(** A string is trimmed when [strip] leaves it unchanged. *)
Definition trimmed (s : str) : Prop := strip s = s.

(** A string Python can hold and UTF-8 can carry: code points up to
    U+10FFFF, no surrogate. *)
Definition encodable (s : str) : Prop :=
  Forall (fun c => c <= 0x10FFFF /\ is_surrogate c = false) s.

(** The keys [INIParser.write] emits in a form [INIParser.parse] reads
    back: no '=' and no line break inside, no leading comment mark. *)
Definition plain_key (k : str) : Prop :=
  k <> [] /\ trimmed k /\ encodable k /\
  ~ In EQUALS k /\ ~ In LF k /\ ~ In CR k /\
  startswith k [HASH] = false /\ startswith k [SEMICOLON] = false.

(** The values that survive: trimmed, on one line. *)
Definition plain_value (v : str) : Prop :=
  trimmed v /\ encodable v /\ ~ In LF v /\ ~ In CR v.

(** The maps the round trip holds for. *)
Definition plain_dict (d : dict) : Prop :=
  NoDup (dict_keys d) /\
  Forall (fun kv => plain_key (fst kv) /\ plain_value (snd kv)) d /\
  match d with
  | (k, _) :: _ => startswith k [BOM] = false
  | [] => True
  end.

(** A string that does not begin with white space. *)
Definition head_not_space (s : str) : Prop :=
  match s with
  | [] => True
  | c :: _ => isspace c = false
  end.

(** The invariant of the key-value store. *)
Definition store_invariant (d : dict) : Prop :=
  NoDup (dict_keys d) /\
  forall k v, In (k, v) d -> k <> [] /\ trimmed k /\ trimmed v.

(** A string without surrogate code points. *)
Definition no_surrogate (s : str) : Prop :=
  Forall (fun c => is_surrogate c = false) s.

(** A file stem without the characters a glob pattern reads as
    wildcards ('*', '?' and '['): the pattern built from it matches by
    its literal text. *)
Definition glob_literal (file_stem : str) : Prop :=
  forallb (fun c => negb (existsb (N.eqb c) [42; 63; 91])) file_stem = true.

(** Where the search for placeholders stands after reading [s]:
    [in_brace] says that a '{' is open, waiting for its '}'.  The text
    ends between tokens when no '{' is open and its last character is
    not a '%' that could still begin "%s" or "%d". *)
Fixpoint at_boundary (s : str) (in_brace : bool) : bool :=
  match s with
  | [] => negb in_brace
  | c :: s' =>
      if in_brace then at_boundary s' (negb (c =? RBRACE))
      else if c =? LBRACE then at_boundary s' true
      else if c =? PERCENT then
        match s' with
        | [] => false
        | _ :: _ => at_boundary s' false
        end
      else at_boundary s' false
  end.

Definition token_boundary (a : str) : Prop := at_boundary a false = true.

(** A series of [create_backup] calls, each with the state of the file
    and the wall-clock timestamp at the call; the directory they leave. *)
Definition backups_after (dir : BackupManager.directory)
           (calls : list (BackupManager.source * str))
  : BackupManager.directory :=
  fold_left
    (fun d call => fst (BackupManager.create_backup d (fst call) (snd call)))
    calls dir.

(** The file global.ini with the given modification time. *)
Definition global_ini (mtime : N) : BackupManager.source :=
  BackupManager.mk_source (py "global") (py ".ini") (Some (mtime, [])).

(** The entry a backup call creates: named after stem, timestamp and
    suffix, with the modification time and content of the file. *)
Definition backup_entry (file_stem file_suffix : str) (c : N * bytes * str)
  : BackupManager.entry :=
  BackupManager.mk_entry (file_stem ++ py "_" ++ snd c ++ file_suffix)
                         (fst (fst c)) (snd (fst c)).

(** The call that creates it. *)
Definition backup_call (file_stem file_suffix : str) (c : N * bytes * str)
  : BackupManager.source * str :=
  (BackupManager.mk_source file_stem file_suffix (Some (fst c)), snd c).

(** The last [n] elements of a list. *)
Definition last_n {A : Type} (n : nat) (l : list A) : list A :=
  skipn (length l - n) l.

(** ** The rest of the program *)

(** [BackupManager.restore] and [TranslationMerger.apply_to_game] work on
    the game file next to the backup directory.  A file is given by its
    modification time and content, [None] when it does not exist. *)
Module Restore.

(** The one exception of this part. *)
Inductive outcome (A : Type) : Type :=
| Done (a : A)
| FileNotFoundError.
Arguments Done {A} a.
Arguments FileNotFoundError {A}.

(** [backup_path.exists()] and the file behind it, for a path inside the
    backup directory. *)
Definition lookup (dir : BackupManager.directory) (backup_path : str)
  : option BackupManager.entry :=
  find (fun e => str_eqb (BackupManager.name e) backup_path) dir.

(** [BackupManager.restore]: what [target_path] holds afterwards, for
    a [target_path] that names a file, present or not, other than the
    backup itself.  [target_dir] tells whether the directory
    [target_path] lies in exists: [shutil.copy2] creates or overwrites
    the file in an existing directory and raises FileNotFoundError when
    the directory is missing. *)
Definition restore (dir : BackupManager.directory) (backup_path : str)
           (target_dir : bool) : outcome (N * bytes) :=
  match lookup dir backup_path with
  | None => FileNotFoundError
  | Some e =>
      if target_dir
      then Done (BackupManager.st_mtime e, BackupManager.content e)
      else FileNotFoundError
  end.

(** [TranslationMerger.apply_to_game]: [target] is the game file (stem and
    suffix of [game_file_name], and its state), [merged_file] the state of
    the file to copy; the result is the backup directory and the game
    file afterwards.  [shutil.copy2] of a missing [merged_file] raises
    after the backup was taken. *)
Definition apply_to_game (dir : BackupManager.directory)
           (target_file : BackupManager.source)
           (merged_file : option (N * bytes)) (timestamp : str)
  : BackupManager.directory * outcome (N * bytes) :=
  let dir :=
    match BackupManager.stat target_file with
    | Some _ => fst (BackupManager.create_backup dir target_file timestamp)
    | None => dir
    end in
  match merged_file with
  | Some st => (dir, Done st)
  | None => (dir, FileNotFoundError)
  end.

End Restore.

(** ** TranslationProject *)

Module TranslationProject.

(** [self.translations] after [add_translation]. *)
Definition add_translation (translations : list Translation.t)
           (translation : Translation.t) : list Translation.t :=
  let translations :=
    filter (fun t => negb (str_eqb (Translation.key t)
                                   (Translation.key translation)))
           translations in
  translations ++ [translation].

(** [dict[str, int]] *)
Definition counter := list (str * nat).

Fixpoint counter_get (d : counter) (k : str) (default : nat) : nat :=
  match d with
  | [] => default
  | (k', n) :: d' => if str_eqb k' k then n else counter_get d' k default
  end.

Fixpoint counter_set (d : counter) (k : str) (n : nat) : counter :=
  match d with
  | [] => [(k, n)]
  | (k', n') :: d' =>
      if str_eqb k' k then (k', n) :: d' else (k', n') :: counter_set d' k n
  end.

(** [get_statistics]: the values of "total" and "categories". *)
Definition get_statistics (translations : list Translation.t)
  : nat * counter :=
  let categories :=
    fold_left
      (fun categories trans =>
         counter_set categories (Translation.category trans)
                     (counter_get categories (Translation.category trans) 0 + 1)%nat)
      translations [] in
  (length translations, categories).

End TranslationProject.

(** ** GameDetector *)

Module GameDetector.

(** A path as the list of its components. *)
Definition path := list str.

Definition COMMON_PATHS : list path :=
  [[py "C:"; py "Program Files"; py "Roberts Space Industries";
    py "StarCitizen"; py "LIVE"];
   [py "D:"; py "Program Files"; py "Roberts Space Industries";
    py "StarCitizen"; py "LIVE"];
   [py "E:"; py "Games"; py "StarCitizen"; py "LIVE"];
   [py "C:"; py "Games"; py "StarCitizen"; py "LIVE"]].

Section FileSystem.
(** [Path.exists] on the machine the program runs on. *)
Variable path_exists : path -> bool.

Definition is_valid_game_path (p : path) : bool :=
  if negb (path_exists p) then false
  else
    let data_dir := p ++ [py "data"] in
    if negb (path_exists data_dir) then false
    else true.

(** The loop of [find_game], over the paths still to try. *)
Fixpoint find_game_from (paths : list path) : option path :=
  match paths with
  | [] => None
  | p :: rest =>
      if is_valid_game_path p then Some p else find_game_from rest
  end.

Definition find_game : option path := find_game_from COMMON_PATHS.

End FileSystem.

Definition get_localization_path (game_path : path) : path :=
  game_path ++ [py "data"] ++ [py "Localization"] ++ [py "english"].

End GameDetector.

(** ** Proof automation *)

(** Linear arithmetic with division and remainder by constants. *)
Ltac div_lia := zify; Z.to_euclidean_division_equations; lia.

Ltac settle_tests :=
  repeat match goal with
    | |- context [?a <? ?b] =>
        first [ rewrite (proj2 (N.ltb_lt a b)) by div_lia
              | rewrite (proj2 (N.ltb_ge a b)) by div_lia ]
    | |- context [?a <=? ?b] =>
        first [ rewrite (proj2 (N.leb_le a b)) by div_lia
              | rewrite (proj2 (N.leb_gt a b)) by div_lia ]
    end.

(* ================================================================== *)
(** * Part II: properties *)
(* ================================================================== *)

(** ** Strings and containers *)

Lemma str_eqb_eq (a b : str) : str_eqb a b = true <-> a = b.
Proof.
  revert b; induction a as [|x a IH]; intros [|y b]; simpl;
    try (split; [discriminate | congruence]); try tauto.
  rewrite andb_true_iff, N.eqb_eq, IH. split.
  - intros [-> ->]; reflexivity.
  - intros H; injection H; auto.
Qed.

Lemma str_eqb_refl (a : str) : str_eqb a a = true.
Proof. apply str_eqb_eq; reflexivity. Qed.

Lemma str_eqb_neq (a b : str) : str_eqb a b = false <-> a <> b.
Proof.
  rewrite <- str_eqb_eq. destruct (str_eqb a b); split; congruence.
Qed.

Lemma str_eqb_sym (a b : str) : str_eqb a b = str_eqb b a.
Proof.
  destruct (str_eqb a b) eqn:E.
  - apply str_eqb_eq in E; subst; symmetry; apply str_eqb_refl.
  - symmetry; apply str_eqb_neq; apply str_eqb_neq in E; congruence.
Qed.

Lemma set_mem_In (x : str) (s : list str) : set_mem x s = true <-> In x s.
Proof.
  unfold set_mem. rewrite existsb_exists. split.
  - intros [y [Hy E]]. apply str_eqb_eq in E; subst; exact Hy.
  - intros H; exists x; split; [exact H | apply str_eqb_refl].
Qed.

Lemma dict_contains_In (d : dict) (k : str) :
  dict_contains d k = true <-> In k (dict_keys d).
Proof.
  unfold dict_contains. induction d as [|[k' v] d IH]; simpl.
  - split; [discriminate | tauto].
  - destruct (str_eqb k' k) eqn:E.
    + apply str_eqb_eq in E; subst; split; auto.
    + apply str_eqb_neq in E. rewrite IH. split; [auto | intros [H|H]; congruence].
Qed.

Lemma dict_keys_set (d : dict) (k v : str) :
  dict_keys (dict_set d k v) =
  if dict_contains d k then dict_keys d else dict_keys d ++ [k].
Proof.
  unfold dict_contains. induction d as [|[k' v'] d IH]; simpl; [reflexivity|].
  destruct (str_eqb k' k) eqn:E; simpl; [reflexivity|].
  rewrite IH. destruct (dict_get d k); reflexivity.
Qed.

Lemma dict_get_set (d : dict) (k v k' : str) :
  dict_get (dict_set d k v) k' =
  if str_eqb k k' then Some v else dict_get d k'.
Proof.
  induction d as [|[k0 v0] d IH]; simpl.
  - reflexivity.
  - destruct (str_eqb k0 k) eqn:E; simpl.
    + apply str_eqb_eq in E; subst k0.
      destruct (str_eqb k k'); reflexivity.
    + destruct (str_eqb k0 k') eqn:E'; [|exact IH].
      apply str_eqb_eq in E'; subst k0. rewrite (str_eqb_sym k k'), E.
      reflexivity.
Qed.

Lemma dict_contains_set (d : dict) (k v k' : str) :
  dict_contains (dict_set d k v) k' = str_eqb k k' || dict_contains d k'.
Proof.
  unfold dict_contains. rewrite dict_get_set.
  destruct (str_eqb k k'); reflexivity.
Qed.

Lemma dict_set_twice (d : dict) (k v : str) :
  dict_set (dict_set d k v) k v = dict_set d k v.
Proof.
  induction d as [|[k' v'] d IH]; simpl.
  - rewrite str_eqb_refl; reflexivity.
  - destruct (str_eqb k' k) eqn:E; simpl; rewrite E; [reflexivity|].
    rewrite IH; reflexivity.
Qed.

(** ** The apply loop of [merge] *)

Lemma find_app_tr (f : Translation.t -> bool) (l1 l2 : list Translation.t) :
  find f (l1 ++ l2) =
  match find f l1 with Some x => Some x | None => find f l2 end.
Proof.
  induction l1 as [|x l1 IH]; simpl; [reflexivity|].
  destruct (f x); [reflexivity | exact IH].
Qed.

Lemma last_translation_cons (t : Translation.t) (ts : list Translation.t)
      (k : str) :
  last_translation (t :: ts) k =
  match last_translation ts k with
  | Some t' => Some t'
  | None => if str_eqb (Translation.key t) k then Some t else None
  end.
Proof.
  unfold last_translation. simpl rev. rewrite find_app_tr.
  destruct (find _ (rev ts)); reflexivity.
Qed.

Lemma overlay_cons (k v : str) (d : dict) (ts : list Translation.t) :
  overlay ((k, v) :: d) ts =
  (k, match last_translation ts k with
      | Some t => Translation.translated t
      | None => v
      end) :: overlay d ts.
Proof. reflexivity. Qed.

Lemma overlay_notin (d : dict) (t : Translation.t) (ts : list Translation.t) :
  ~ In (Translation.key t) (dict_keys d) ->
  overlay d (t :: ts) = overlay d ts.
Proof.
  induction d as [|[k v] d IH]; intros Hn; [reflexivity|].
  rewrite !overlay_cons, last_translation_cons.
  assert (E : str_eqb (Translation.key t) k = false).
  { apply str_eqb_neq. intros HE. apply Hn; left; symmetry; exact HE. }
  rewrite E, IH by (intros H; apply Hn; right; exact H).
  destruct (last_translation ts k); reflexivity.
Qed.

Lemma overlay_set (d : dict) (t : Translation.t) (ts : list Translation.t) :
  NoDup (dict_keys d) ->
  In (Translation.key t) (dict_keys d) ->
  overlay (dict_set d (Translation.key t) (Translation.translated t)) ts =
  overlay d (t :: ts).
Proof.
  induction d as [|[k v] d IH]; intros Hnd Hin; [destruct Hin|].
  inversion Hnd as [|? ? Hk Hd]; subst.
  cbn [dict_set].
  destruct (str_eqb k (Translation.key t)) eqn:E.
  - apply str_eqb_eq in E; subst k.
    rewrite !overlay_cons, last_translation_cons, str_eqb_refl.
    rewrite (overlay_notin d t ts Hk).
    destruct (last_translation ts _); reflexivity.
  - rewrite !overlay_cons, last_translation_cons, (str_eqb_sym _ k), E.
    rewrite IH.
    + destruct (last_translation ts k); reflexivity.
    + exact Hd.
    + destruct Hin as [H|H]; [|exact H].
      apply str_eqb_neq in E. simpl in H. congruence.
Qed.

Lemma overlay_keys (d : dict) (ts : list Translation.t) :
  dict_keys (overlay d ts) = dict_keys d.
Proof.
  unfold dict_keys, overlay. rewrite map_map. apply map_ext.
  intros [k v]; reflexivity.
Qed.

Lemma overlay_nil (d : dict) : overlay d [] = d.
Proof.
  unfold overlay. simpl. rewrite <- (map_id d) at 2. apply map_ext.
  intros [k v]; reflexivity.
Qed.

(** The loop in closed form. *)
Lemma apply_loop_closed (ts : list Translation.t) :
  forall (d : dict) (a : nat) (nf : list str),
    NoDup (dict_keys d) ->
    fold_left TranslationMerger.apply_one ts (d, a, nf) =
    (overlay d ts,
     (a + length (filter (fun t => dict_contains d (Translation.key t)) ts))%nat,
     nf ++ List.map Translation.key
             (filter (fun t => negb (dict_contains d (Translation.key t))) ts)).
Proof.
  induction ts as [|t ts IH]; intros d a nf Hnd; simpl.
  - rewrite overlay_nil, Nat.add_0_r, app_nil_r. reflexivity.
  - destruct (dict_contains d (Translation.key t)) eqn:Hc; simpl.
    + assert (Hsame : forall t' : Translation.t,
                 dict_contains
                   (dict_set d (Translation.key t) (Translation.translated t))
                   (Translation.key t')
                 = dict_contains d (Translation.key t')).
      { intros t'. rewrite dict_contains_set.
        destruct (str_eqb _ _) eqn:E; [|reflexivity].
        apply str_eqb_eq in E. rewrite <- E, Hc. reflexivity. }
      rewrite IH by (rewrite dict_keys_set, Hc; exact Hnd).
      rewrite (overlay_set d t ts Hnd) by (apply dict_contains_In; exact Hc).
      rewrite (filter_ext _ _ Hsame).
      rewrite (filter_ext
                 (fun t0 => negb (dict_contains
                    (dict_set d (Translation.key t) (Translation.translated t))
                    (Translation.key t0)))
                 (fun t0 => negb (dict_contains d (Translation.key t0))))
        by (intros t'; rewrite Hsame; reflexivity).
      f_equal. f_equal. lia.
    + rewrite IH by exact Hnd. rewrite overlay_notin.
      2:{ rewrite <- dict_contains_In, Hc. discriminate. }
      rewrite <- app_assoc. reflexivity.
Qed.

(** C5: applying the merge step of one translation record to a map a
    second time leaves the map as the first application made it. *)
Theorem merge_step_idempotent
        (merged_data : dict) (applied : nat) (not_found : list str)
        (trans : Translation.t) :
  let once :=
    TranslationMerger.apply_one (merged_data, applied, not_found) trans in
  fst (fst (TranslationMerger.apply_one once trans)) = fst (fst once).
Proof.
  simpl. destruct (dict_contains merged_data (Translation.key trans)) eqn:Hc.
  - simpl. rewrite dict_contains_set, str_eqb_refl. simpl.
    apply dict_set_twice.
  - simpl. rewrite Hc. reflexivity.
Qed.

(** ** [strip] and [partition] *)

Lemma lstrip_head (s : str) : head_not_space (lstrip s).
Proof.
  induction s as [|c s IH]; simpl; [exact I|].
  destruct (isspace c) eqn:E; [exact IH | exact E].
Qed.

Lemma lstrip_id (s : str) : head_not_space s -> lstrip s = s.
Proof. destruct s as [|c s]; simpl; [reflexivity | intros ->; reflexivity]. Qed.

Lemma lstrip_idem (s : str) : lstrip (lstrip s) = lstrip s.
Proof. apply lstrip_id, lstrip_head. Qed.

Lemma lstrip_app (a b : str) :
  lstrip (a ++ b) =
  match lstrip a with
  | [] => lstrip b
  | _ :: _ => lstrip a ++ b
  end.
Proof.
  induction a as [|c a IH]; simpl; [reflexivity|].
  destruct (isspace c); [exact IH | reflexivity].
Qed.

Lemma rstrip_cons (c : char) (s : str) :
  rstrip (c :: s) =
  match rstrip s with
  | [] => if isspace c then [] else [c]
  | _ :: _ => c :: rstrip s
  end.
Proof.
  unfold rstrip. simpl rev. rewrite lstrip_app.
  destruct (lstrip (rev s)) as [|x l] eqn:E; simpl.
  - destruct (isspace c); reflexivity.
  - rewrite rev_app_distr. simpl.
    destruct (rev l ++ [x]) eqn:E'; [|reflexivity].
    destruct (rev l); discriminate.
Qed.

Lemma rstrip_head (s : str) : head_not_space s -> head_not_space (rstrip s).
Proof.
  destruct s as [|c s]; [intros _; exact I|].
  simpl. intros Hc. rewrite rstrip_cons, Hc.
  destruct (rstrip s); exact Hc.
Qed.

Lemma rstrip_idem (s : str) : rstrip (rstrip s) = rstrip s.
Proof. unfold rstrip. rewrite rev_involutive, lstrip_idem. reflexivity. Qed.

Lemma strip_head (s : str) : head_not_space (strip s).
Proof. apply rstrip_head, lstrip_head. Qed.

Lemma strip_last (s : str) : head_not_space (rev (strip s)).
Proof. unfold strip, rstrip. rewrite rev_involutive. apply lstrip_head. Qed.

Lemma strip_idem (s : str) : strip (strip s) = strip s.
Proof.
  unfold strip at 1. rewrite (lstrip_id (strip s)) by apply strip_head.
  unfold strip. apply rstrip_idem.
Qed.

Lemma rstrip_id (s : str) : head_not_space (rev s) -> rstrip s = s.
Proof.
  intros H. unfold rstrip. rewrite lstrip_id by exact H. apply rev_involutive.
Qed.

Lemma strip_id (s : str) :
  head_not_space s -> head_not_space (rev s) -> strip s = s.
Proof.
  intros H1 H2. unfold strip. rewrite lstrip_id by exact H1.
  apply rstrip_id, H2.
Qed.

Lemma trimmed_edges (s : str) :
  trimmed s <-> head_not_space s /\ head_not_space (rev s).
Proof.
  unfold trimmed. split.
  - intros E. rewrite <- E. split; [apply strip_head | apply strip_last].
  - intros [H1 H2]. apply strip_id; assumption.
Qed.

Lemma contains_In (c : char) (s : str) : contains c s = true <-> In c s.
Proof.
  unfold contains. rewrite existsb_exists. split.
  - intros [x [Hx E]]. apply N.eqb_eq in E. subst; exact Hx.
  - intros H. exists c. split; [exact H | apply N.eqb_refl].
Qed.

Lemma partition_app (sep : char) (a b : str) :
  ~ In sep a -> partition sep (a ++ sep :: b) = (a, b).
Proof.
  induction a as [|c a IH]; simpl; intros Hn.
  - rewrite N.eqb_refl. reflexivity.
  - destruct (c =? sep) eqn:E.
    + apply N.eqb_eq in E. exfalso. apply Hn. left. exact E.
    + rewrite IH by tauto. reflexivity.
Qed.

Lemma partition_split (sep : char) (s : str) :
  In sep s ->
  s = fst (partition sep s) ++ sep :: snd (partition sep s) /\
  ~ In sep (fst (partition sep s)).
Proof.
  induction s as [|c s IH]; simpl; intros Hin; [destruct Hin|].
  destruct (c =? sep) eqn:E.
  - apply N.eqb_eq in E. subst. simpl. split; [reflexivity | tauto].
  - apply N.eqb_neq in E. destruct Hin as [H|H]; [congruence|].
    destruct (IH H) as [IH1 IH2].
    destruct (partition sep s) as [a b]. simpl in *.
    split; [rewrite <- IH1; reflexivity | intros [H'|H']; [congruence | tauto]].
Qed.

(** ** [INIParser.parse]: what a line contributes, and the invariant *)

Lemma truthy_false {A : Type} (xs : list A) : truthy xs = false <-> xs = [].
Proof. destruct xs; simpl; split; congruence. Qed.

Lemma startswith_single (s : str) (c : char) :
  startswith s [c] = match s with [] => false | x :: _ => x =? c end.
Proof.
  destruct s as [|x s]; simpl; [reflexivity|].
  destruct s; apply andb_true_r.
Qed.

Lemma parse_line_entry (data : dict) (line : str) :
  exists e : option (str * str),
    line_entry line e /\
    INIParser.parse_line data line =
    match e with
    | None => data
    | Some (k, v) => dict_set data k v
    end.
Proof.
  unfold INIParser.parse_line; cbv zeta.
  destruct (truthy (strip line)) eqn:Ht; cbn [negb orb].
  2:{ exists None. split; [|reflexivity].
      apply line_blank, truthy_false, Ht. }
  destruct (startswith (strip line) [HASH]) eqn:Hh; cbn [orb].
  { exists None. split; [|reflexivity].
    rewrite startswith_single in Hh.
    destruct (strip line) as [|c rest] eqn:Hs; [discriminate|].
    apply (line_comment line c rest Hs). left. apply N.eqb_eq, Hh. }
  destruct (startswith (strip line) [SEMICOLON]) eqn:Hsc.
  { exists None. split; [|reflexivity].
    rewrite startswith_single in Hsc.
    destruct (strip line) as [|c rest] eqn:Hs; [discriminate|].
    apply (line_comment line c rest Hs). right. apply N.eqb_eq, Hsc. }
  destruct (contains EQUALS (strip line)) eqn:Hc.
  2:{ exists None. split; [|reflexivity].
      apply line_no_equals. rewrite <- contains_In, Hc. discriminate. }
  apply contains_In in Hc.
  destruct (partition_split EQUALS (strip line) Hc) as [Hsplit Hnot].
  destruct (partition EQUALS (strip line)) as [a b].
  cbn [fst snd] in Hsplit, Hnot.
  destruct (truthy (strip a)) eqn:Hk.
  - exists (Some (strip a, strip b)). split; [|reflexivity].
    apply line_pair; try assumption.
    intros E. rewrite E in Hk. discriminate.
  - exists None. split; [|reflexivity].
    apply (line_empty_key line a b); try assumption.
    apply truthy_false, Hk.
Qed.

Lemma In_dict_set (d : dict) (k v k0 v0 : str) :
  In (k0, v0) (dict_set d k v) -> In (k0, v0) d \/ (k0 = k /\ v0 = v).
Proof.
  induction d as [|[k' v'] d IH]; simpl.
  - intros [H|[]]. injection H; auto.
  - destruct (str_eqb k' k) eqn:E; simpl.
    + apply str_eqb_eq in E. subst. intros [H|H]; [|auto].
      injection H. auto.
    + intros [H|H]; [auto|]. destruct (IH H); auto.
Qed.

Lemma store_invariant_set (d : dict) (k v : str) :
  store_invariant d -> k <> [] -> trimmed k -> trimmed v ->
  store_invariant (dict_set d k v).
Proof.
  intros [Hnd Hall] Hk Htk Htv. split.
  - rewrite dict_keys_set. destruct (dict_contains d k) eqn:Hc; [exact Hnd|].
    apply NoDup_app; [exact Hnd | repeat constructor; simpl; tauto |].
    intros x Hx [<-|[]]. apply dict_contains_In in Hx. congruence.
  - intros k0 v0 Hin. apply In_dict_set in Hin.
    destruct Hin as [Hin|[-> ->]]; [apply Hall, Hin | auto].
Qed.

Lemma parse_line_invariant (data : dict) (line : str) :
  store_invariant data -> store_invariant (INIParser.parse_line data line).
Proof.
  intros Hinv. destruct (parse_line_entry data line) as [e [He ->]].
  destruct He; try exact Hinv.
  apply store_invariant_set; [exact Hinv | assumption | |];
    unfold trimmed; apply strip_idem.
Qed.

Lemma fold_parse_line_invariant (ls : list str) (data : dict) :
  store_invariant data ->
  store_invariant (fold_left INIParser.parse_line ls data).
Proof.
  revert data. induction ls as [|l ls IH]; simpl; intros data H; [exact H|].
  apply IH, parse_line_invariant, H.
Qed.

Lemma parse_text_invariant (text : str) :
  store_invariant (INIParser.parse_text text).
Proof.
  apply fold_parse_line_invariant. split; [constructor | intros ? ? []].
Qed.




(** ** [merge] in closed form *)


Lemma print_keys_if (keys : list str) :
  (if truthy keys then TranslationMerger.print_keys (firstn 5 keys)
   else Ok tt)
  = TranslationMerger.print_keys (firstn 5 keys).
Proof. destruct keys; reflexivity. Qed.

Lemma merge_closed_form {rt : PyRuntime} (source_file : bytes)
      (translations : list Translation.t) (validate : bool) :
  TranslationMerger.merge source_file translations validate =
  (source_data <- INIParser.parse source_file ;;
   reported <-
     TranslationMerger.print_keys
       (firstn 5
          (List.map Translation.key
             (filter (fun t => negb (dict_contains source_data
                                       (Translation.key t)))
                     translations))) ;;
   written <- INIParser.write (overlay source_data translations) ;;
   Ok (TranslationMerger.mk_outcome
         (overlay source_data translations)
         (if validate
          then TranslationMerger.validate_all source_data translations
          else [])
         (length (filter (fun t => dict_contains source_data (Translation.key t))
                         translations))
         (List.map Translation.key
            (filter (fun t => negb (dict_contains source_data (Translation.key t)))
                    translations))
         written)).
Proof.
  unfold TranslationMerger.merge.
  destruct (INIParser.parse source_file) as [source_data|e] eqn:Hp;
    [|reflexivity].
  simpl bind.
  assert (Hnd : NoDup (dict_keys source_data)).
  { unfold INIParser.parse in Hp.
    destruct (utf8_sig_decode source_file); [|discriminate].
    simpl in Hp. injection Hp as <-. apply parse_text_invariant. }
  rewrite (apply_loop_closed translations source_data O [] Hnd).
  cbv beta iota zeta. cbn [app]. rewrite print_keys_if. reflexivity.
Qed.

(** ** The matcher finds words of the pattern *)

Lemma backtrack_some (n : nat) (s : str) (k : str -> option str) (x : str) :
  Re.backtrack n s k = Some x ->
  exists i : nat, (1 <= i <= n)%nat /\ k (skipn i s) = Some x.
Proof.
  induction n as [|n IH]; cbn [Re.backtrack]; [discriminate|].
  destruct (k (skipn (S n) s)) as [r|] eqn:E.
  - intros H. exists (S n). split; [lia | congruence].
  - intros H. destruct (IH H) as [i [Hi Hk]]. exists i. split; [lia | exact Hk].
Qed.

Lemma span_firstn (cs : Re.cset) (s : str) (i : nat) :
  (i <= Re.span cs s)%nat ->
  forallb (Re.cset_mem cs) (firstn i s) = true /\ length (firstn i s) = i.
Proof.
  revert i. induction s as [|c s IH]; intros i; simpl.
  - intros Hi. assert (i = O) by lia. subst. split; reflexivity.
  - destruct i as [|i]; [split; reflexivity|].
    destruct (Re.cset_mem cs c) eqn:E; [|lia].
    intros Hi. destruct (IH i ltac:(lia)) as [H1 H2]. simpl.
    rewrite E, H1, H2. split; reflexivity.
Qed.

Lemma m_sound (r : Re.re) :
  forall (s : str) (k : str -> option str) (x : str),
    Re.m r s k = Some x ->
    exists w s' : str, s = w ++ s' /\ re_matches r w /\ k s' = Some x.
Proof.
  induction r as [cs|cs|a IHa b IHb|a IHa b IHb]; intros s k x; simpl.
  - destruct s as [|c s]; [discriminate|].
    destruct (Re.cset_mem cs c) eqn:E; [|discriminate].
    intros H. exists [c], s. repeat split; [constructor; exact E | exact H].
  - intros H. apply backtrack_some in H. destruct H as [i [Hi Hk]].
    destruct (span_firstn cs s i ltac:(lia)) as [Hall Hlen].
    exists (firstn i s), (skipn i s).
    split; [symmetry; apply firstn_skipn|]. split; [|exact Hk].
    constructor; [|exact Hall].
    intros E. rewrite E in Hlen. simpl in Hlen. lia.
  - intros H. apply IHa in H. destruct H as (w1 & s1 & -> & M1 & H).
    apply IHb in H. destruct H as (w2 & s2 & -> & M2 & H).
    exists (w1 ++ w2), s2. rewrite app_assoc.
    repeat split; [constructor; assumption | exact H].
  - destruct (Re.m a s k) as [r|] eqn:E.
    + intros H. injection H as ->. apply IHa in E.
      destruct E as (w & s' & -> & M & H).
      exists w, s'. repeat split; [apply matches_alt_l, M | exact H].
    + intros H. apply IHb in H. destruct H as (w & s' & -> & M & H).
      exists w, s'. repeat split; [apply matches_alt_r, M | exact H].
Qed.

Lemma scan_sound (r : Re.re) (s : str) :
  forall (skip : nat) (t : str), In t (Re.scan r s skip) -> re_matches r t.
Proof.
  induction s as [|c s IH]; intros skip t; cbn [Re.scan]; [intros []|].
  destruct skip as [|n]; [|apply IH].
  destruct (Re.m r (c :: s) (@Some str)) as [rest|] eqn:E; [|apply IH].
  apply m_sound in E. destruct E as (w & s' & Hs & M & Hk).
  injection Hk as <-.
  intros [H|H]; [|exact (IH _ _ H)].
  subst t. rewrite Hs, length_app, Nat.add_sub.
  rewrite firstn_app, Nat.sub_diag, firstn_all. simpl. rewrite app_nil_r.
  exact M.
Qed.

Lemma findall_sound (r : Re.re) (s t : str) :
  In t (Re.findall r s) -> re_matches r t.
Proof. apply scan_sound. Qed.

Lemma forallb_not_rbrace (w : str) :
  forallb (Re.cset_mem (Re.NotLit RBRACE)) w = true -> ~ In RBRACE w.
Proof.
  induction w as [|c w IH]; simpl; [tauto|].
  rewrite andb_true_iff, negb_true_iff, N.eqb_neq.
  intros [H1 H2] [H|H]; [congruence | exact (IH H2 H)].
Qed.

Lemma placeholder_words (t : str) :
  re_matches TranslationValidator.placeholder t -> placeholder_shape t.
Proof.
  unfold TranslationValidator.placeholder. intros H.
  inversion H as [| | | ? ? ? Ha | ? ? ? Hb]; subst.
  - left. inversion Ha as [| |? ? w1 w2 H1 H2| |]; subst.
    inversion H1 as [? c Hc| | | |]; subst.
    inversion H2 as [| |? ? w3 w4 H3 H4| |]; subst.
    inversion H3 as [|? w Hne Hall| | |]; subst.
    inversion H4 as [? c' Hc'| | | |]; subst.
    simpl in Hc, Hc'. apply N.eqb_eq in Hc, Hc'. subst.
    exists w3. split; [exact Hne|]. split; [|reflexivity].
    apply forallb_not_rbrace, Hall.
  - right. inversion Hb as [| |? ? w1 w2 H1 H2| |]; subst.
    inversion H1 as [? c Hc| | | |]; subst.
    inversion H2 as [? c' Hc'| | | |]; subst.
    simpl in Hc, Hc'. apply N.eqb_eq in Hc. subst.
    rewrite !orb_true_iff, !N.eqb_eq in Hc'.
    destruct Hc' as [->|[->|H']]; [left | right | discriminate]; reflexivity.
Qed.

(** ** Sets of tokens *)

Lemma set_of_In (x : str) (l : list str) : In x (set_of l) <-> In x l.
Proof.
  induction l as [|y l IH]; simpl; [tauto|].
  destruct (set_mem y l) eqn:E.
  - apply set_mem_In in E. rewrite IH. split; [auto | intros [<-|H]; auto].
  - simpl. rewrite IH. tauto.
Qed.


Lemma set_eqb_iff (a b : list str) :
  set_eqb a b = true <-> (forall x, In x a <-> In x b).
Proof.
  unfold set_eqb. rewrite andb_true_iff, !forallb_forall. split.
  - intros [H1 H2] x. split; intros H.
    + apply set_mem_In, H1, H.
    + apply set_mem_In, H2, H.
  - intros H. split; intros x Hx; apply set_mem_In, H, Hx.
Qed.





(** ** The length check *)

Lemma gt_times_1_5_Q (n m : nat) :
  TranslationValidator.gt_times_1_5 n m = true <->
  (inject_Z (Z.of_nat m) * 1.5 < inject_Z (Z.of_nat n))%Q.
Proof.
  unfold TranslationValidator.gt_times_1_5.
  rewrite negb_true_iff. split.
  - intros H. apply Qnot_le_lt. intros Hle.
    apply Qle_bool_iff in Hle. congruence.
  - intros H. apply Qlt_not_le in H.
    destruct (Qle_bool _ _) eqn:E; [|reflexivity].
    apply Qle_bool_iff in E. contradiction.
Qed.

Lemma gt_times_1_5_nat (n m : nat) :
  TranslationValidator.gt_times_1_5 n m = true <-> (3 * m < 2 * n)%nat.
Proof.
  unfold TranslationValidator.gt_times_1_5, Qle_bool.
  rewrite negb_true_iff, Z.leb_gt. cbn. lia.
Qed.

(** C3: the length check returns exactly one WARNING diagnostic, whose
    message cites the two character counts, when the translation has
    more than 1.5 times the characters of the original, and nothing
    otherwise.  For an original of two characters, four or more
    characters give the warning and three or fewer give none. *)
Theorem check_length_threshold (trans : Translation.t) (original : str) :
  let n := length (Translation.translated trans) in
  let m := length original in
  let warning :=
    ValidationResult.mk WARNING
      (py "'" ++ Translation.key trans ++ py "' is much longer ("
       ++ str_of_nat n ++ py " vs " ++ str_of_nat m
       ++ py " chars) - may not fit in UI")
      (Some (Translation.key trans)) in
  (TranslationValidator._check_length trans original = [warning] <->
   (inject_Z (Z.of_nat m) * 1.5 < inject_Z (Z.of_nat n))%Q) /\
  (TranslationValidator._check_length trans original = [] <->
   ~ (inject_Z (Z.of_nat m) * 1.5 < inject_Z (Z.of_nat n))%Q) /\
  (m = 2%nat ->
   ((4 <= n)%nat ->
    TranslationValidator._check_length trans original = [warning]) /\
   ((n <= 3)%nat ->
    TranslationValidator._check_length trans original = [])) /\
  str_of_nat 21 = py "21".
Proof.
  intros n m warning.
  assert (Hcases :
            (TranslationValidator.gt_times_1_5 n m = true /\
             TranslationValidator._check_length trans original = [warning]) \/
            (TranslationValidator.gt_times_1_5 n m = false /\
             TranslationValidator._check_length trans original = [])).
  { unfold TranslationValidator._check_length. fold n m.
    destruct (TranslationValidator.gt_times_1_5 n m); [left | right];
      split; reflexivity. }
  split; [|split; [|split; [|reflexivity]]].
  - rewrite <- gt_times_1_5_Q.
    destruct Hcases as [[Hg ->]|[Hg ->]]; split; congruence.
  - rewrite <- gt_times_1_5_Q.
    destruct Hcases as [[Hg ->]|[Hg ->]]; split;
      solve [congruence | discriminate | reflexivity].
  - intros Hm. split; intros Hn.
    + destruct Hcases as [[_ ->]|[Hg _]]; [reflexivity|].
      assert (TranslationValidator.gt_times_1_5 n m = true)
        by (apply gt_times_1_5_nat; lia).
      congruence.
    + destruct Hcases as [[Hg _]|[_ ->]]; [|reflexivity].
      apply gt_times_1_5_nat in Hg. lia.
Qed.

Lemma check_length_threshold_witness :
  TranslationValidator._check_length
    (Translation.mk (py "greet") (py "Hi") (py "Hiya") (py "ui") []) (py "Hi")
  = [ValidationResult.mk WARNING
       (py "'greet' is much longer (4 vs 2 chars) - may not fit in UI")
       (Some (py "greet"))] /\
  TranslationValidator._check_length
    (Translation.mk (py "greet") (py "Hi") (py "Hey") (py "ui") []) (py "Hi")
  = [].
Proof.
  split.
  - apply (check_length_threshold
             (Translation.mk (py "greet") (py "Hi") (py "Hiya") (py "ui") [])
             (py "Hi")); [reflexivity | vm_compute; lia].
  - apply (check_length_threshold
             (Translation.mk (py "greet") (py "Hi") (py "Hey") (py "ui") [])
             (py "Hi")); [reflexivity | vm_compute; lia].
Defined.

(** ** [validate] *)

(** C4: [validate] is a function of the record and the original value
    and returns the diagnostics of the variable check, then those of the
    length check, then those of the special-character check, then those
    of the encoding check; each check contributes whatever the others
    return.  On a record that fails all four, all four diagnostics come
    back, in that order. *)
Theorem validate_runs_all_checks {rt : PyRuntime}
        (translation : Translation.t) (original_value : str) :
  TranslationValidator.validate translation original_value =
  TranslationValidator._check_variables translation original_value
  ++ TranslationValidator._check_length translation original_value
  ++ TranslationValidator._check_special_chars translation
  ++ TranslationValidator._check_encoding translation /\
  length (TranslationValidator.validate translation original_value) =
  (length (TranslationValidator._check_variables translation original_value)
   + length (TranslationValidator._check_length translation original_value)
   + length (TranslationValidator._check_special_chars translation)
   + length (TranslationValidator._check_encoding translation))%nat /\
  List.map ValidationResult.level
    (TranslationValidator.validate
       (Translation.mk (py "k") (py "a") (py "{x}" ++ [LF; 0xD800])
                       (py "general") [])
       (py "a"))
  = [ERROR; WARNING; INFO; ERROR].
Proof.
  assert (E : TranslationValidator.validate translation original_value =
              TranslationValidator._check_variables translation original_value
              ++ TranslationValidator._check_length translation original_value
              ++ TranslationValidator._check_special_chars translation
              ++ TranslationValidator._check_encoding translation).
  { unfold TranslationValidator.validate. cbv zeta.
    rewrite app_nil_l, <- !app_assoc. reflexivity. }
  split; [exact E|]. split; [|vm_compute; reflexivity].
  rewrite E, !length_app. lia.
Qed.

(** ** The empty brace pair *)

Lemma placeholder_no_start (c : char) (s : str) :
  c <> LBRACE -> c <> PERCENT ->
  Re.m TranslationValidator.placeholder (c :: s) (@Some str) = None.
Proof.
  intros H1 H2. apply N.eqb_neq in H1, H2.
  unfold TranslationValidator.placeholder. cbn [Re.m Re.cset_mem].
  rewrite H1, H2. reflexivity.
Qed.

Lemma scan_no_start (a rest : str) :
  ~ In LBRACE a -> ~ In PERCENT a ->
  Re.scan TranslationValidator.placeholder (a ++ rest) O =
  Re.scan TranslationValidator.placeholder rest O.
Proof.
  induction a as [|c a IH]; intros H1 H2; [reflexivity|].
  rewrite <- app_comm_cons. cbn [Re.scan].
  rewrite placeholder_no_start.
  - apply IH; intros H; [apply H1 | apply H2]; right; exact H.
  - intros ->. apply H1. left. reflexivity.
  - intros ->. apply H2. left. reflexivity.
Qed.

Lemma scan_empty_braces (b : str) :
  Re.scan TranslationValidator.placeholder (py "{}" ++ b) O =
  Re.scan TranslationValidator.placeholder b O.
Proof. reflexivity. Qed.

Lemma findall_empty_braces (a b : str) :
  ~ In LBRACE a -> ~ In PERCENT a ->
  Re.findall TranslationValidator.placeholder (a ++ py "{}" ++ b) =
  Re.findall TranslationValidator.placeholder (a ++ b).
Proof.
  intros H1 H2. unfold Re.findall.
  rewrite (scan_no_start a (py "{}" ++ b)) by assumption.
  rewrite (scan_no_start a b) by assumption.
  apply scan_empty_braces.
Qed.

Lemma set_eqb_refl (a : list str) : set_eqb a a = true.
Proof. apply set_eqb_iff. tauto. Qed.

Lemma shape_not_empty_braces : ~ placeholder_shape (py "{}").
Proof.
  intros [(body & Hne & _ & E)|[E|E]]; try discriminate.
  destruct body as [|c body]; [congruence|].
  destruct body; discriminate.
Qed.

Lemma scan_skip (r : Re.re) (w b : str) :
  Re.scan r (w ++ b) (length w) = Re.scan r b O.
Proof.
  induction w as [|c w IH]; [reflexivity|].
  cbn [app length Re.scan]. exact IH.
Qed.

Lemma span_body (body rest : str) :
  ~ In RBRACE body ->
  Re.span (Re.NotLit RBRACE) (body ++ RBRACE :: rest) = length body.
Proof.
  induction body as [|c body IH]; intros Hn.
  - cbn [app Re.span Re.cset_mem]. rewrite N.eqb_refl. reflexivity.
  - cbn [app Re.span Re.cset_mem length].
    assert (E : (c =? RBRACE) = false).
    { apply N.eqb_neq. intros ->. apply Hn. left. reflexivity. }
    rewrite E. cbn [negb]. rewrite IH; [reflexivity|].
    intros H. apply Hn. right. exact H.
Qed.

Lemma match_brace_token (body rest : str) :
  body <> [] -> ~ In RBRACE body ->
  Re.m TranslationValidator.placeholder
       (LBRACE :: body ++ RBRACE :: rest) (@Some str) = Some rest.
Proof.
  intros Hne Hn. unfold TranslationValidator.placeholder.
  cbn [Re.m Re.cset_mem]. rewrite N.eqb_refl.
  rewrite (span_body body rest Hn).
  destruct body as [|c body]; [congruence|].
  cbn [length Re.backtrack].
  replace (skipn (S (length body)) ((c :: body) ++ RBRACE :: rest))
    with (RBRACE :: rest).
  - rewrite N.eqb_refl. reflexivity.
  - change (S (length body)) with (length (c :: body)).
    rewrite skipn_app, Nat.sub_diag, skipn_all. reflexivity.
Qed.

Lemma at_boundary_open (s : str) :
  at_boundary s true = true ->
  exists body rest : str,
    s = body ++ RBRACE :: rest /\ ~ In RBRACE body /\
    at_boundary rest false = true.
Proof.
  induction s as [|c s IH]; cbn [at_boundary]; [discriminate|].
  destruct (c =? RBRACE) eqn:E; cbn [negb]; intros H.
  - apply N.eqb_eq in E. subst c. exists [], s.
    split; [reflexivity|]. split; [intros []|exact H].
  - destruct (IH H) as (body & rest & -> & Hn & Hr).
    exists (c :: body), rest. split; [reflexivity|]. split; [|exact Hr].
    intros [->|Hin]; [|exact (Hn Hin)].
    rewrite N.eqb_refl in E. discriminate.
Qed.

Lemma scan_brace_token (body rest : str) :
  body <> [] -> ~ In RBRACE body ->
  Re.scan TranslationValidator.placeholder
          (LBRACE :: body ++ RBRACE :: rest) O
  = (LBRACE :: body ++ [RBRACE])
      :: Re.scan TranslationValidator.placeholder rest O.
Proof.
  intros Hne Hn. cbn [Re.scan]. rewrite (match_brace_token body rest Hne Hn).
  replace (length (LBRACE :: body ++ RBRACE :: rest) - length rest)%nat
    with (length (LBRACE :: body ++ [RBRACE])).
  2:{ cbn [length]. rewrite !length_app. cbn [length]. lia. }
  f_equal.
  - replace (LBRACE :: body ++ RBRACE :: rest)
      with ((LBRACE :: body ++ [RBRACE]) ++ rest)
      by (cbn [app]; rewrite <- app_assoc; reflexivity).
    rewrite firstn_app, Nat.sub_diag, firstn_all. cbn [firstn].
    apply app_nil_r.
  - replace (body ++ RBRACE :: rest) with ((body ++ [RBRACE]) ++ rest)
      by (rewrite <- app_assoc; reflexivity).
    replace (length (LBRACE :: body ++ [RBRACE]) - 1)%nat
      with (length (body ++ [RBRACE])) by (cbn [length]; lia).
    apply scan_skip.
Qed.

Lemma scan_percent (d : char) (s : str) :
  Re.scan TranslationValidator.placeholder (PERCENT :: d :: s) O =
  if (d =? 115) || (d =? 100)
  then [PERCENT; d] :: Re.scan TranslationValidator.placeholder s O
  else Re.scan TranslationValidator.placeholder (d :: s) O.
Proof.
  cbn [Re.scan]. unfold TranslationValidator.placeholder.
  cbn [Re.m Re.cset_mem existsb]. change (PERCENT =? LBRACE) with false.
  change (PERCENT =? PERCENT) with true. cbv iota. rewrite orb_false_r.
  destruct ((d =? 115) || (d =? 100)); [|reflexivity].
  replace (length (PERCENT :: d :: s) - length s)%nat with 2%nat
    by (cbn [length]; lia).
  reflexivity.
Qed.

(** A text that ends between tokens is searched on its own: what
    follows it is searched from its first character. *)
Lemma scan_boundary (n : nat) :
  forall a rest : str,
    (length a <= n)%nat -> at_boundary a false = true ->
    Re.scan TranslationValidator.placeholder (a ++ rest) O =
    Re.scan TranslationValidator.placeholder a O
    ++ Re.scan TranslationValidator.placeholder rest O.
Proof.
  induction n as [|n IH]; intros a rest Hlen Hb.
  { destruct a; [reflexivity | cbn [length] in Hlen; lia]. }
  destruct a as [|c a]; [reflexivity|].
  cbn [length] in Hlen. cbn [at_boundary] in Hb.
  destruct (c =? LBRACE) eqn:EL.
  - apply N.eqb_eq in EL. subst c.
    destruct (at_boundary_open a Hb) as (body & a' & -> & Hn & Ha').
    rewrite length_app in Hlen. cbn [length] in Hlen.
    destruct body as [|c body].
    + change ((LBRACE :: [] ++ RBRACE :: a') ++ rest)
        with (py "{}" ++ (a' ++ rest)).
      change (LBRACE :: [] ++ RBRACE :: a') with (py "{}" ++ a').
      rewrite !scan_empty_braces. apply IH; [lia | exact Ha'].
    + replace ((LBRACE :: (c :: body) ++ RBRACE :: a') ++ rest)
        with (LBRACE :: (c :: body) ++ RBRACE :: (a' ++ rest))
        by (cbn [app]; rewrite <- app_assoc; reflexivity).
      rewrite !scan_brace_token by (assumption || discriminate).
      cbn [app]. f_equal.
      apply IH; [cbn [length] in Hlen; lia | exact Ha'].
  - destruct (c =? PERCENT) eqn:EP.
    + apply N.eqb_eq in EP. subst c.
      destruct a as [|d a]; [discriminate|].
      rewrite <- !app_comm_cons, !scan_percent.
      destruct ((d =? 115) || (d =? 100)) eqn:Ed.
      * rewrite <- app_comm_cons. f_equal.
        cbn [length] in Hlen. apply IH; [lia|].
        cbn [at_boundary] in Hb.
        apply orb_true_iff in Ed.
        destruct Ed as [Ed|Ed]; apply N.eqb_eq in Ed; subst d; exact Hb.
      * rewrite app_comm_cons. apply IH; [lia | exact Hb].
    + rewrite <- app_comm_cons. cbn [Re.scan].
      apply N.eqb_neq in EL, EP.
      rewrite !placeholder_no_start by assumption.
      apply IH; [lia | exact Hb].
Qed.

Lemma findall_boundary (a rest : str) :
  token_boundary a ->
  Re.findall TranslationValidator.placeholder (a ++ rest) =
  Re.findall TranslationValidator.placeholder a
  ++ Re.findall TranslationValidator.placeholder rest.
Proof. intros H. apply (scan_boundary (length a)); [lia | exact H]. Qed.

Lemma findall_boundary_braces (a b : str) :
  token_boundary a ->
  Re.findall TranslationValidator.placeholder (a ++ py "{}" ++ b) =
  Re.findall TranslationValidator.placeholder (a ++ b).
Proof.
  intros H. rewrite !(findall_boundary a) by exact H.
  unfold Re.findall. rewrite scan_empty_braces. reflexivity.
Qed.

(** C10 (as amended): the text "{}" is never among the tokens the
    variable check extracts: every brace-delimited token has at least
    one character between its braces.  Where the text before the pair
    ends between tokens (no '{' is open there and its last character is
    not '%'), putting "{}" into the original, or into the translation,
    changes no token set, and the pair yields no variable diagnostic. *)
Theorem empty_braces_not_a_token {rt : PyRuntime} :
  (forall s : str,
      ~ In (py "{}") (Re.findall TranslationValidator.placeholder s)) /\
  (forall s t : str,
      In t (Re.findall TranslationValidator.placeholder s) ->
      placeholder_shape t) /\
  (forall (trans : Translation.t) (a b : str),
      token_boundary a ->
      Translation.translated trans = a ++ b ->
      TranslationValidator._check_variables trans (a ++ py "{}" ++ b) = []) /\
  (forall (trans : Translation.t) (a b : str),
      token_boundary a ->
      Translation.translated trans = a ++ py "{}" ++ b ->
      TranslationValidator._check_variables trans (a ++ b) = []).
Proof.
  assert (Hshape : forall s t : str,
             In t (Re.findall TranslationValidator.placeholder s) ->
             placeholder_shape t).
  { intros s t H. apply placeholder_words, (findall_sound _ _ _ H). }
  split.
  { intros s H. apply shape_not_empty_braces, (Hshape s), H. }
  split; [exact Hshape|].
  split; intros trans a b Ha Ht;
    unfold TranslationValidator._check_variables; cbv zeta;
    rewrite Ht, findall_boundary_braces by assumption;
    rewrite set_eqb_refl; reflexivity.
Qed.

Lemma empty_braces_not_a_token_witness :
  placeholder_shape (py "{name}") /\
  TranslationValidator._check_variables
    (rt := sample_runtime)
    (Translation.mk (py "stock") (py "{name} has {} items")
                    (py "{name} has  items") (py "ui") [])
    (py "{name} has {} items") = [] /\
  TranslationValidator._check_variables
    (rt := sample_runtime)
    (Translation.mk (py "rate") (py "%d of 100% done")
                    (py "%d of 100% {}done") (py "ui") [])
    (py "%d of 100% done") = [].
Proof.
  destruct (empty_braces_not_a_token (rt := sample_runtime))
    as (_ & Hshape & Horig & Htrans).
  split; [|split].
  - apply (Hshape (py "Dear {name},") (py "{name}")).
    vm_compute. left. reflexivity.
  - apply (Horig _ (py "{name} has ") (py " items"));
      [vm_compute | ]; reflexivity.
  - apply (Htrans _ (py "%d of 100% ") (py "done"));
      [vm_compute | ]; reflexivity.
Defined.

(** C10 as stated fails: between a '%' and an 's' the pair keeps "%s"
    from being a token, and after an open '{' its '}' closes the token
    "{{}"; taking the pair out of "100%{}s" or out of "{{}x" changes the
    token set, and the variable check reports an error. *)
Lemma empty_braces_change_tokens :
  Re.findall TranslationValidator.placeholder (py "100%{}s") = [] /\
  Re.findall TranslationValidator.placeholder (py "100%s") = [py "%s"] /\
  List.map ValidationResult.level
    (TranslationValidator._check_variables
       (rt := sample_runtime)
       (Translation.mk (py "pct") (py "100%{}s") (py "100%s") (py "ui") [])
       (py "100%{}s")) = [ERROR] /\
  Re.findall TranslationValidator.placeholder (py "{{}x") = [py "{{}"] /\
  Re.findall TranslationValidator.placeholder (py "{x") = [] /\
  List.map ValidationResult.level
    (TranslationValidator._check_variables
       (rt := sample_runtime)
       (Translation.mk (py "open") (py "{{}x") (py "{x") (py "ui") [])
       (py "{{}x")) = [ERROR] /\
  ~ (forall (trans : Translation.t) (a b : str),
        Translation.translated trans = a ++ b ->
        TranslationValidator._check_variables
          (rt := sample_runtime) trans (a ++ py "{}" ++ b) = []).
Proof.
  repeat (split; [vm_compute; reflexivity|]).
  intros H.
  specialize (H (Translation.mk (py "pct") (py "100%{}s") (py "100%s")
                                (py "ui") [])
                (py "100%") (py "s") eq_refl).
  vm_compute in H. discriminate.
Qed.

(** ** The UTF-8 codec *)

Lemma utf8_encode_char_ok (c : char) :
  is_surrogate c = false -> exists b, utf8_encode_char c = Ok b.
Proof.
  intros H. unfold utf8_encode_char. rewrite H.
  destruct (c <? 0x80); [eexists; reflexivity|].
  destruct (c <? 0x800); [eexists; reflexivity|].
  destruct (c <? 0x10000); eexists; reflexivity.
Qed.

Lemma utf8_encode_ok (s : str) :
  Forall (fun c => is_surrogate c = false) s ->
  exists bs, utf8_encode s = Ok bs.
Proof.
  induction 1 as [|c s Hc Hs [bs IH]]; simpl; [eexists; reflexivity|].
  destruct (utf8_encode_char_ok c Hc) as [b ->]. rewrite IH. simpl.
  eexists; reflexivity.
Qed.


(** ** What [write] can encode *)




(** ** Decoding what was encoded *)

Lemma not_surrogate_range (c : char) :
  is_surrogate c = false <-> c < 0xD800 \/ 0xDFFF < c.
Proof.
  unfold is_surrogate. rewrite andb_false_iff, !N.leb_gt. reflexivity.
Qed.

Lemma utf8_value_2 (c : char) :
  (0xC0 + c / 64 - 0xC0) * 64 + (0x80 + c mod 64 - 0x80) = c.
Proof. div_lia. Qed.

Lemma utf8_value_3 (c : char) :
  (0xE0 + c / 4096 - 0xE0) * 4096 + (0x80 + (c / 64) mod 64 - 0x80) * 64
  + (0x80 + c mod 64 - 0x80) = c.
Proof. div_lia. Qed.

Lemma utf8_value_4 (c : char) :
  (0xF0 + c / 262144 - 0xF0) * 262144 + (0x80 + (c / 4096) mod 64 - 0x80) * 4096
  + (0x80 + (c / 64) mod 64 - 0x80) * 64 + (0x80 + c mod 64 - 0x80) = c.
Proof. div_lia. Qed.

Lemma utf8_decode_encode_char (c : char) (rest : bytes) :
  c <= 0x10FFFF -> is_surrogate c = false ->
  exists b : bytes,
    utf8_encode_char c = Ok b /\
    utf8_decode (b ++ rest) = (s <- utf8_decode rest ;; Ok (c :: s)).
Proof.
  intros Hmax Hsur. unfold utf8_encode_char. rewrite Hsur.
  apply not_surrogate_range in Hsur.
  destruct (N.ltb_spec c 0x80) as [H1|H1];
    [|destruct (N.ltb_spec c 0x800) as [H2|H2];
      [|destruct (N.ltb_spec c 0x10000) as [H3|H3]]];
    eexists; (split; [reflexivity|]); cbn [app utf8_decode].
  - settle_tests. reflexivity.
  - unfold is_cont. settle_tests. cbn [andb].
    rewrite utf8_value_2. reflexivity.
  - unfold is_cont, is_surrogate. rewrite utf8_value_3.
    settle_tests. cbn [andb].
    destruct Hsur as [Hs|Hs]; settle_tests; cbn [andb negb]; reflexivity.
  - unfold is_cont. rewrite utf8_value_4.
    settle_tests. cbn [andb]. reflexivity.
Qed.

Lemma encodable_cons (c : char) (s : str) :
  encodable (c :: s) <->
  (c <= 0x10FFFF /\ is_surrogate c = false) /\ encodable s.
Proof. unfold encodable. apply Forall_cons_iff. Qed.

Lemma utf8_roundtrip (s : str) :
  encodable s ->
  exists bs : bytes, utf8_encode s = Ok bs /\ utf8_decode bs = Ok s.
Proof.
  induction s as [|c s IH]; intros He.
  - exists []. split; reflexivity.
  - apply encodable_cons in He. destruct He as [[Hmax Hsur] Hs].
    destruct (IH Hs) as (bs & Henc & Hdec).
    destruct (utf8_decode_encode_char c bs Hmax Hsur) as (b & Hb & Hd).
    exists (b ++ bs). cbn [utf8_encode]. rewrite Hb, Henc. split; [reflexivity|].
    rewrite Hd, Hdec. reflexivity.
Qed.

Lemma Ok_inj {A : Type} (a b : A) : Ok a = Ok b -> a = b.
Proof. congruence. Qed.

Lemma cons_inj {A : Type} (x y : A) (l l' : list A) :
  x :: l = y :: l' -> x = y /\ l = l'.
Proof. intros H. split; congruence. Qed.

Lemma utf8_sig_decode_plain (bs : bytes) :
  (forall b0 b1 b2 r, bs = b0 :: b1 :: b2 :: r ->
                      ~ (b0 = 0xEF /\ b1 = 0xBB /\ b2 = 0xBF)) ->
  (forall r, bs = 0xEF :: r -> (2 <= length r)%nat) ->
  utf8_sig_decode bs = utf8_decode bs.
Proof.
  intros H Hlen. unfold utf8_sig_decode.
  destruct bs as [|b0 [|b1 [|b2 r]]]; try reflexivity.
  - destruct (b0 =? 0xEF) eqn:E; [|reflexivity].
    apply N.eqb_eq in E. subst b0.
    specialize (Hlen [] eq_refl). cbn [length] in Hlen. lia.
  - destruct (b0 =? 0xEF) eqn:E; [|reflexivity].
    apply N.eqb_eq in E. subst b0.
    specialize (Hlen [b1] eq_refl). cbn [length] in Hlen. lia.
  - destruct ((b0 =? 0xEF) && (b1 =? 0xBB) && (b2 =? 0xBF)) eqn:E;
      [|reflexivity].
    rewrite !andb_true_iff, !N.eqb_eq in E. exfalso.
    apply (H b0 b1 b2 r eq_refl). tauto.
Qed.

Lemma utf8_encode_no_bom (s : str) (bs : bytes) :
  startswith s [BOM] = false ->
  utf8_encode s = Ok bs ->
  utf8_sig_decode bs = utf8_decode bs.
Proof.
  intros Hb He. apply utf8_sig_decode_plain.
  - intros b0 b1 b2 r Hbs.
    destruct s as [|c s]; [simpl in He; injection He as <-; discriminate|].
    rewrite startswith_single in Hb. apply N.eqb_neq in Hb. unfold BOM in Hb.
    cbn [utf8_encode] in He. unfold utf8_encode_char in He.
    destruct (N.ltb_spec c 0x80) as [H1|H1];
      [|destruct (N.ltb_spec c 0x800) as [H2|H2];
        [|destruct (N.ltb_spec c 0x10000) as [H3|H3];
          [destruct (is_surrogate c); [discriminate|]|]]];
      cbn [bind] in He;
      (destruct (utf8_encode s) as [bs'|]; [|discriminate]);
      cbn [bind app] in He; apply Ok_inj in He; subst bs;
      intros (E0 & E1 & E2);
      repeat match goal with
        | H : _ :: _ = _ :: _ |- _ => apply cons_inj in H; destruct H
        end;
      div_lia.
  - intros r Hbs.
    destruct s as [|c s]; [simpl in He; injection He as <-; discriminate|].
    cbn [utf8_encode] in He. unfold utf8_encode_char in He.
    destruct (N.ltb_spec c 0x80) as [H1|H1];
      [|destruct (N.ltb_spec c 0x800) as [H2|H2];
        [|destruct (N.ltb_spec c 0x10000) as [H3|H3];
          [destruct (is_surrogate c); [discriminate|]|]]];
      cbn [bind] in He;
      (destruct (utf8_encode s) as [bs'|]; [|discriminate]);
      cbn [bind app] in He; apply Ok_inj in He; subst bs;
      apply cons_inj in Hbs; destruct Hbs as [E0 Er];
      try (exfalso; div_lia).
    subst r. cbn [length]. lia.
Qed.

(** ** Reading back what [write] wrote *)

Lemma universal_translate (t : str) :
  ~ In CR t -> universal_newlines (translate_crlf t) = t.
Proof.
  unfold translate_crlf. induction t as [|c t IH]; intros Hn; [reflexivity|].
  cbn [flat_map].
  assert (Hc : (c =? CR) = false).
  { apply N.eqb_neq. intros ->. apply Hn. left. reflexivity. }
  assert (IH' : universal_newlines
                  (flat_map (fun c => if c =? LF then [CR; LF] else [c]) t) = t).
  { apply IH. intros H. apply Hn. right. exact H. }
  destruct (c =? LF) eqn:E.
  - apply N.eqb_eq in E. subst c. cbn [app universal_newlines].
    change (CR =? CR) with true. change (LF =? LF) with true. cbn iota.
    rewrite IH'. reflexivity.
  - cbn [app universal_newlines]. rewrite Hc, IH'. reflexivity.
Qed.

Lemma readlines_line (w rest : str) :
  ~ In LF w -> readlines (w ++ LF :: rest) = (w ++ [LF]) :: readlines rest.
Proof.
  induction w as [|c w IH]; intros Hn.
  - reflexivity.
  - rewrite <- !app_comm_cons. cbn [readlines].
    assert (Hc : (c =? LF) = false).
    { apply N.eqb_neq. intros ->. apply Hn. left. reflexivity. }
    rewrite Hc, IH by (intros H; apply Hn; right; exact H).
    reflexivity.
Qed.

Lemma readlines_render (d : dict) :
  (forall k v, In (k, v) d -> ~ In LF k /\ ~ In LF v) ->
  readlines (INIParser.render d) =
  List.map (fun kv => fst kv ++ [EQUALS] ++ snd kv ++ [LF]) d.
Proof.
  unfold INIParser.render. induction d as [|[k v] d IH]; intros H;
    [reflexivity|].
  cbn [flat_map List.map fst snd].
  destruct (H k v (or_introl eq_refl)) as [Hk Hv].
  replace ((k ++ [EQUALS] ++ v ++ [LF]) ++
           flat_map (fun '(key, value) => key ++ [EQUALS] ++ value ++ [LF]) d)
    with ((k ++ [EQUALS] ++ v) ++ LF ::
          flat_map (fun '(key, value) => key ++ [EQUALS] ++ value ++ [LF]) d)
    by (rewrite <- !app_assoc; reflexivity).
  rewrite readlines_line.
  - rewrite IH by (intros k' v' Hin; apply H; right; exact Hin).
    rewrite <- !app_assoc. reflexivity.
  - rewrite !in_app_iff. intros [Hi|[Hi|Hi]]; [tauto| |tauto].
    destruct Hi as [Hi|[]]. discriminate.
Qed.

Lemma head_not_space_app (a b : str) :
  a <> [] -> head_not_space a -> head_not_space (a ++ b).
Proof. destruct a; [congruence | intros _ H; exact H]. Qed.

Lemma rstrip_snoc_space (w : str) (c : char) :
  isspace c = true -> rstrip (w ++ [c]) = rstrip w.
Proof.
  intros H. unfold rstrip. rewrite rev_app_distr. cbn [rev app lstrip].
  rewrite H. reflexivity.
Qed.

Lemma strip_rendered_line (k v : str) :
  k <> [] -> trimmed k -> trimmed v ->
  strip (k ++ [EQUALS] ++ v ++ [LF]) = k ++ [EQUALS] ++ v.
Proof.
  intros Hne Hk Hv. apply trimmed_edges in Hk, Hv.
  destruct Hk as [Hk1 Hk2]. destruct Hv as [Hv1 Hv2].
  unfold strip. rewrite lstrip_id by (apply head_not_space_app; assumption).
  replace (k ++ [EQUALS] ++ v ++ [LF]) with ((k ++ [EQUALS] ++ v) ++ [LF])
    by (rewrite <- !app_assoc; reflexivity).
  rewrite rstrip_snoc_space by reflexivity.
  apply rstrip_id. rewrite !rev_app_distr. cbn [rev app].
  destruct (rev v) as [|c r] eqn:E; [reflexivity | exact Hv2].
Qed.

Lemma dict_set_new (d : dict) (k v : str) :
  ~ In k (dict_keys d) -> dict_set d k v = d ++ [(k, v)].
Proof.
  induction d as [|[k' v'] d IH]; intros Hn; [reflexivity|].
  cbn [dict_set app].
  assert (E : str_eqb k' k = false).
  { apply str_eqb_neq. intros ->. apply Hn. left. reflexivity. }
  rewrite E, IH by (intros H; apply Hn; right; exact H). reflexivity.
Qed.

Lemma parse_rendered_line (data : dict) (k v : str) :
  plain_key k -> plain_value v ->
  INIParser.parse_line data (k ++ [EQUALS] ++ v ++ [LF]) = dict_set data k v.
Proof.
  intros (Hne & Htk & _ & Heq & _ & _ & Hh & Hs) (Htv & _).
  unfold INIParser.parse_line. cbv zeta.
  rewrite (strip_rendered_line k v Hne Htk Htv).
  destruct k as [|c k'] eqn:Ek; [congruence|]. rewrite <- Ek in *.
  assert (Hstart : forall p, startswith (k ++ [EQUALS] ++ v) [p]
                             = startswith k [p]).
  { intros p. rewrite !startswith_single, Ek. reflexivity. }
  rewrite !Hstart, Hh, Hs.
  replace (truthy (k ++ [EQUALS] ++ v)) with true by (rewrite Ek; reflexivity).
  cbn [negb orb].
  replace (contains EQUALS (k ++ [EQUALS] ++ v)) with true.
  2:{ symmetry. apply contains_In, in_or_app. right. left. reflexivity. }
  change (k ++ [EQUALS] ++ v) with (k ++ EQUALS :: v).
  rewrite (partition_app EQUALS k v Heq).
  unfold trimmed in Htk, Htv. rewrite Htk, Htv.
  replace (truthy k) with true by (rewrite Ek; reflexivity).
  reflexivity.
Qed.

Lemma fold_parse_rendered (d2 : dict) :
  forall d1 : dict,
    NoDup (dict_keys (d1 ++ d2)) ->
    Forall (fun kv => plain_key (fst kv) /\ plain_value (snd kv)) d2 ->
    fold_left INIParser.parse_line
              (List.map (fun kv => fst kv ++ [EQUALS] ++ snd kv ++ [LF]) d2) d1
    = d1 ++ d2.
Proof.
  induction d2 as [|[k v] d2 IH]; intros d1 Hnd Hall.
  - rewrite app_nil_r. reflexivity.
  - inversion Hall as [|? ? [Hk Hv] Hrest]; subst.
    cbn [List.map fold_left fst snd].
    rewrite (parse_rendered_line d1 k v Hk Hv).
    unfold dict_keys in Hnd. rewrite map_app in Hnd. cbn [List.map fst] in Hnd.
    rewrite dict_set_new.
    2:{ apply NoDup_remove_2 in Hnd. intros H. apply Hnd, in_or_app.
        left. exact H. }
    rewrite IH.
    + rewrite <- app_assoc. reflexivity.
    + unfold dict_keys. rewrite <- app_assoc, map_app. exact Hnd.
    + exact Hrest.
Qed.

Lemma encodable_app (a b : str) :
  encodable (a ++ b) <-> encodable a /\ encodable b.
Proof. unfold encodable. apply Forall_app. Qed.

Lemma encodable_translate (t : str) :
  encodable t -> encodable (translate_crlf t).
Proof.
  unfold translate_crlf. induction t as [|c t IH]; intros H; [constructor|].
  apply encodable_cons in H. destruct H as [Hc Ht].
  cbn [flat_map]. apply encodable_app. split; [|apply IH, Ht].
  destruct (c =? LF).
  - repeat constructor; try discriminate.
  - constructor; [exact Hc | constructor].
Qed.

Lemma encodable_render (d : dict) :
  Forall (fun kv => plain_key (fst kv) /\ plain_value (snd kv)) d ->
  encodable (INIParser.render d).
Proof.
  unfold INIParser.render. induction 1 as [|[k v] d [Hk Hv] Hd IH];
    [constructor|].
  cbn [flat_map]. cbn [fst snd] in Hk, Hv.
  destruct Hk as (_ & _ & Hk & _). destruct Hv as (_ & Hv & _).
  rewrite !encodable_app. repeat split; try assumption;
    repeat constructor; discriminate.
Qed.

Lemma render_no_cr (d : dict) :
  Forall (fun kv => plain_key (fst kv) /\ plain_value (snd kv)) d ->
  ~ In CR (INIParser.render d).
Proof.
  unfold INIParser.render. induction 1 as [|[k v] d [Hk Hv] Hd IH];
    [intros []|].
  cbn [flat_map]. cbn [fst snd] in Hk, Hv.
  destruct Hk as (_ & _ & _ & _ & _ & Hk & _). destruct Hv as (_ & _ & _ & Hv).
  rewrite !in_app_iff. intros [[H|[H|[H|H]]]|H]; try tauto.
  - destruct H as [H|[]]. discriminate.
  - destruct H as [H|[]]. discriminate.
Qed.

Lemma render_no_bom (d : dict) :
  plain_dict d ->
  startswith (translate_crlf (INIParser.render d)) [BOM] = false.
Proof.
  intros (_ & Hall & Hb). destruct d as [|[k v] d]; [reflexivity|].
  inversion Hall as [|? ? [Hk _] _]; subst. cbn [fst] in Hk.
  destruct Hk as (Hne & _ & _ & _ & Hlf & _).
  destruct k as [|c k]; [congruence|].
  rewrite startswith_single in Hb.
  unfold INIParser.render, translate_crlf. cbn [flat_map app].
  assert (E : (c =? LF) = false).
  { apply N.eqb_neq. intros ->. apply Hlf. left. reflexivity. }
  rewrite E. cbn [app]. rewrite startswith_single. exact Hb.
Qed.

(** C1 (as amended): for a map whose keys are unique, non-empty and
    trimmed, hold no '=' and no line break and do not begin with '#' or
    ';' (nor, for the first key, with the byte-order mark), and whose
    values are trimmed and hold no line break, all of it encodable as
    UTF-8, [write] succeeds and [parse] of the file it wrote returns the
    same map, in the same order. *)
Theorem write_then_parse (data : dict) (Hplain : plain_dict data) :
  exists file : bytes,
    INIParser.write data = Ok file /\ INIParser.parse file = Ok data.
Proof.
  pose proof Hplain as (Hnd & Hall & _).
  pose proof (encodable_translate _ (encodable_render data Hall)) as Henc.
  destruct (utf8_roundtrip _ Henc) as (file & Hw & Hr).
  exists file. split; [exact Hw|].
  unfold INIParser.parse.
  rewrite (utf8_encode_no_bom _ file (render_no_bom data Hplain) Hw), Hr.
  cbn [bind]. f_equal. unfold INIParser.parse_text.
  rewrite (universal_translate _ (render_no_cr data Hall)).
  rewrite readlines_render.
  - apply (fold_parse_rendered data []); assumption.
  - intros k v Hin. rewrite Forall_forall in Hall.
    destruct (Hall (k, v) Hin) as [Hk Hv]. cbn [fst snd] in Hk, Hv.
    destruct Hk as (_ & _ & _ & _ & Hk & _). destruct Hv as (_ & _ & Hv & _).
    split; assumption.
Qed.

Lemma write_then_parse_witness :
  exists file : bytes,
    INIParser.write [(py "ui_title", py "Star Map"); (py "ui_empty", [])]
    = Ok file /\
    INIParser.parse file
    = Ok [(py "ui_title", py "Star Map"); (py "ui_empty", [])].
Proof.
  apply write_then_parse.
  unfold plain_dict, plain_key, plain_value, trimmed, encodable.
  split; [|split; [|reflexivity]].
  - repeat constructor; simpl; intuition discriminate.
  - repeat constructor; try reflexivity; try discriminate;
      simpl; intuition discriminate.
Defined.

(** C1 as stated fails: a value with leading white space comes back
    trimmed although its key is unique, non-empty and trimmed; a key
    holding '=' is cut at it, a key beginning with '#' is dropped, a
    value holding a line break is split, a byte-order mark at the head
    of the first key is lost, and a lone surrogate makes [write] raise. *)
Lemma write_then_parse_not_identity :
  (NoDup (dict_keys [(py "k", py " v")]) /\
   (forall k v, In (k, v) [(py "k", py " v")] -> k <> [] /\ strip k = k) /\
   (file <- INIParser.write [(py "k", py " v")] ;; INIParser.parse file)
   = Ok [(py "k", py "v")]) /\
  (file <- INIParser.write [(py "a=b", py "c")] ;; INIParser.parse file)
  = Ok [(py "a", py "b=c")] /\
  (file <- INIParser.write [(py "#k", py "v")] ;; INIParser.parse file)
  = Ok [] /\
  (file <- INIParser.write [(py "k", py "x" ++ [LF] ++ py "y=z")] ;;
   INIParser.parse file)
  = Ok [(py "k", py "x"); (py "y", py "z")] /\
  (file <- INIParser.write [(BOM :: py "k", py "v")] ;; INIParser.parse file)
  = Ok [(py "k", py "v")] /\
  INIParser.write [(py "k", [0xD800])] = Raise UnicodeEncodeError /\
  ~ (forall data : dict,
        NoDup (dict_keys data) ->
        (forall k v, In (k, v) data -> k <> [] /\ strip k = k) ->
        exists file : bytes,
          INIParser.write data = Ok file /\ INIParser.parse file = Ok data).
Proof.
  assert (Hkeys : NoDup (dict_keys [(py "k", py " v")]) /\
                  (forall k v, In (k, v) [(py "k", py " v")] ->
                               k <> [] /\ strip k = k)).
  { split; [repeat constructor; simpl; tauto|].
    intros k v [E|[]]. injection E as <- <-.
    split; [discriminate | reflexivity]. }
  split; [split; [apply Hkeys | split; [apply Hkeys | reflexivity]]|].
  split; [reflexivity|]. split; [reflexivity|]. split; [reflexivity|].
  split; [reflexivity|]. split; [reflexivity|].
  intros H. destruct (H _ (proj1 Hkeys) (proj2 Hkeys)) as (file & Hw & Hp).
  vm_compute in Hw. injection Hw as <-. vm_compute in Hp. discriminate.
Qed.

(** ** Pruning when modification times grow with the calls *)

Lemma startswith_app (p s : str) : startswith (p ++ s) p = true.
Proof.
  induction p as [|c p IH]; [destruct s; reflexivity|].
  cbn [app startswith]. rewrite N.eqb_refl, IH. reflexivity.
Qed.

Lemma copy2_new (dir : BackupManager.directory) (n : str) (m : N)
      (d : bytes) :
  ~ In n (List.map BackupManager.name dir) ->
  BackupManager.copy2 dir n m d = dir ++ [BackupManager.mk_entry n m d].
Proof.
  induction dir as [|e dir IH]; intros Hn; [reflexivity|].
  cbn [BackupManager.copy2 app].
  assert (E : str_eqb (BackupManager.name e) n = false).
  { apply str_eqb_neq. intros H. apply Hn. left. exact H. }
  rewrite E, IH by (intros H; apply Hn; right; exact H). reflexivity.
Qed.

Lemma insert_desc_last (x : BackupManager.entry)
      (s : list BackupManager.entry) :
  Forall (fun e => BackupManager.st_mtime x < BackupManager.st_mtime e) s ->
  BackupManager.insert_desc x s = s ++ [x].
Proof.
  induction 1 as [|e s He Hs IH]; [reflexivity|].
  cbn [BackupManager.insert_desc app].
  rewrite (proj2 (N.leb_gt _ _) He), IH. reflexivity.
Qed.

Lemma sorted_desc_rev (l : list BackupManager.entry) :
  StronglySorted N.lt (List.map BackupManager.st_mtime l) ->
  BackupManager.sorted_desc l = rev l.
Proof.
  unfold BackupManager.sorted_desc.
  induction l as [|x l IH]; intros Hs; [reflexivity|].
  cbn [List.map] in Hs. apply StronglySorted_inv in Hs.
  destruct Hs as [Hs Hx]. cbn [fold_right rev]. rewrite (IH Hs).
  apply insert_desc_last. rewrite Forall_forall in *.
  intros e He. apply Hx, in_map, in_rev, He.
Qed.

Lemma filter_none {A : Type} (f : A -> bool) (l : list A) :
  (forall x, In x l -> f x = false) -> filter f l = [].
Proof.
  induction l as [|x l IH]; intros H; [reflexivity|].
  cbn [filter]. rewrite (H x (or_introl eq_refl)).
  apply IH. intros y Hy. apply H. right. exact Hy.
Qed.

Lemma filter_all {A : Type} (f : A -> bool) (l : list A) :
  (forall x, In x l -> f x = true) -> filter f l = l.
Proof.
  induction l as [|x l IH]; intros H; [reflexivity|].
  cbn [filter]. rewrite (H x (or_introl eq_refl)). f_equal.
  apply IH. intros y Hy. apply H. right. exact Hy.
Qed.

Lemma fold_unlink (dels : list BackupManager.entry) :
  forall l : BackupManager.directory,
    fold_left (fun d old => BackupManager.unlink d (BackupManager.name old))
              dels l
    = filter (fun e => negb (set_mem (BackupManager.name e)
                                     (List.map BackupManager.name dels))) l.
Proof.
  induction dels as [|o dels IH]; intros l.
  - symmetry. apply filter_all. reflexivity.
  - cbn [fold_left]. rewrite IH. unfold BackupManager.unlink.
    induction l as [|e l IHl]; [reflexivity|].
    cbn [filter List.map set_mem existsb].
    fold (set_mem (BackupManager.name e) (List.map BackupManager.name dels)).
    destruct (str_eqb (BackupManager.name e) (BackupManager.name o));
      cbn [negb orb]; [exact IHl|].
    cbn [filter].
    destruct (set_mem (BackupManager.name e) _); cbn [negb];
      rewrite IHl; reflexivity.
Qed.

Lemma drop_listed (pre post : list BackupManager.entry) (names : list str) :
  NoDup (List.map BackupManager.name (pre ++ post)) ->
  (forall x, In x names <-> In x (List.map BackupManager.name pre)) ->
  filter (fun e => negb (set_mem (BackupManager.name e) names)) (pre ++ post)
  = post.
Proof.
  intros Hnd Hnames. rewrite filter_app, filter_none, filter_all;
    [reflexivity| |].
  - intros e He. apply negb_true_iff.
    destruct (set_mem _ names) eqn:E; [|reflexivity].
    apply set_mem_In, Hnames in E. rewrite map_app in Hnd.
    exfalso. revert Hnd E. generalize (in_map BackupManager.name _ _ He).
    generalize (BackupManager.name e). generalize (List.map BackupManager.name post).
    generalize (List.map BackupManager.name pre).
    intros a. induction a as [|y a IH]; intros b n Hb Hnd [].
    + inversion Hnd; subst. apply H2, in_or_app. right. exact Hb.
    + inversion Hnd; subst. apply (IH b n Hb H3 H).
  - intros e He. apply negb_false_iff, set_mem_In, Hnames, in_map, He.
Qed.

Lemma cleanup_sorted (l : BackupManager.directory) (file_stem : str) :
  NoDup (List.map BackupManager.name l) ->
  (forall e, In e l ->
             startswith (BackupManager.name e) (file_stem ++ py "_") = true) ->
  StronglySorted N.lt (List.map BackupManager.st_mtime l) ->
  BackupManager._cleanup_old_backups l file_stem 5 = last_n 5 l.
Proof.
  intros Hnd Hglob Hsorted.
  unfold BackupManager._cleanup_old_backups, BackupManager.glob_stem, last_n.
  cbv zeta. rewrite (filter_all _ l Hglob), (sorted_desc_rev l Hsorted).
  rewrite skipn_rev, fold_unlink.
  pose proof (drop_listed (firstn (length l - 5) l) (skipn (length l - 5) l)
                (List.map BackupManager.name (rev (firstn (length l - 5) l))))
    as Hdrop.
  rewrite firstn_skipn in Hdrop. apply Hdrop; [exact Hnd|].
  intros x. rewrite map_rev, <- in_rev. reflexivity.
Qed.

Lemma StronglySorted_snoc (l : list N) (x : N) :
  StronglySorted N.lt (l ++ [x]) <->
  StronglySorted N.lt l /\ Forall (fun y => y < x) l.
Proof.
  induction l as [|y l IH]; cbn [app].
  - split; [intros _; split; constructor | intros _; repeat constructor].
  - split.
    + intros H. apply StronglySorted_inv in H. destruct H as [H1 H2].
      apply IH in H1. destruct H1 as [H1 H3].
      apply Forall_app in H2. destruct H2 as [H2 H4].
      split; [constructor; assumption|].
      constructor; [|exact H3]. inversion H4; assumption.
    + intros [H1 H2]. apply StronglySorted_inv in H1. destruct H1 as [H1 H3].
      inversion H2; subst. constructor.
      * apply IH. split; assumption.
      * apply Forall_app. split; [exact H3 | repeat constructor; assumption].
Qed.

Lemma StronglySorted_skipn (k : nat) (l : list N) :
  StronglySorted N.lt l -> StronglySorted N.lt (skipn k l).
Proof.
  revert l. induction k as [|k IH]; intros l H; [exact H|].
  destruct l as [|x l]; [exact H|].
  apply StronglySorted_inv in H. apply IH, H.
Qed.

Lemma In_skipn {A : Type} (k : nat) (l : list A) (x : A) :
  In x (skipn k l) -> In x l.
Proof.
  intros H. rewrite <- (firstn_skipn k l). apply in_or_app. right. exact H.
Qed.

Lemma NoDup_skipn {A : Type} (k : nat) (l : list A) :
  NoDup l -> NoDup (skipn k l).
Proof.
  intros H. rewrite <- (firstn_skipn k l) in H.
  apply NoDup_app_remove_l in H. exact H.
Qed.

Lemma last_n_snoc {A : Type} (l : list A) (x : A) :
  last_n 5 (last_n 5 l ++ [x]) = last_n 5 (l ++ [x]).
Proof.
  unfold last_n. rewrite !length_app, length_skipn. cbn [length].
  destruct (Nat.le_gt_cases (length l) 5) as [H|H].
  - replace (length l - 5)%nat with O by lia. cbn [skipn].
    rewrite Nat.sub_0_r. reflexivity.
  - replace (length l - (length l - 5) + 1 - 5)%nat with 1%nat by lia.
    replace (length l + 1 - 5)%nat with (1 + (length l - 5))%nat by lia.
    rewrite <- skipn_skipn. f_equal.
    rewrite skipn_app.
    replace (length l - 5 - length l)%nat with O by lia. reflexivity.
Qed.

Lemma backup_entry_name_inj (file_stem file_suffix : str)
      (c : N * bytes * str) (calls : list (N * bytes * str)) :
  In (BackupManager.name (backup_entry file_stem file_suffix c))
     (List.map BackupManager.name
               (List.map (backup_entry file_stem file_suffix) calls)) ->
  In (snd c) (List.map snd calls).
Proof.
  rewrite map_map. intros H. apply in_map_iff in H.
  destruct H as (c' & E & Hin). apply in_map_iff. exists c'.
  split; [|exact Hin].
  unfold backup_entry in E. cbn [BackupManager.name] in E.
  apply app_inv_head in E. apply app_inv_head in E.
  apply app_inv_tail in E. exact E.
Qed.

(** With every backup taken at a second of its own and the file's
    modification time growing from call to call, the directory holds the
    last five backups created (for a stem without wildcards). *)
Lemma backups_keep_last_five (file_stem file_suffix : str)
      (calls : list (N * bytes * str)) (Hlit : glob_literal file_stem) :
  NoDup (List.map snd calls) ->
  StronglySorted N.lt (List.map (fun c => fst (fst c)) calls) ->
  backups_after [] (List.map (backup_call file_stem file_suffix) calls)
  = last_n 5 (List.map (backup_entry file_stem file_suffix) calls).
Proof.
  induction calls as [|c calls IH] using rev_ind; intros Hnd Hs;
    [reflexivity|].
  rewrite !map_app in *. cbn [List.map] in *.
  apply StronglySorted_snoc in Hs. destruct Hs as [Hs Hlt].
  assert (Hnd' : NoDup (List.map snd calls)).
  { apply NoDup_remove_1 in Hnd. rewrite app_nil_r in Hnd. exact Hnd. }
  assert (Hfresh : ~ In (snd c) (List.map snd calls)).
  { apply NoDup_remove_2 in Hnd. rewrite app_nil_r in Hnd. exact Hnd. }
  unfold backups_after in *. rewrite fold_left_app. cbn [fold_left].
  rewrite (IH Hnd' Hs). clear IH.
  set (es := List.map (backup_entry file_stem file_suffix) calls).
  unfold backup_call at 1 2. cbn [fst snd].
  unfold BackupManager.create_backup.
  cbn [BackupManager.stat BackupManager.stem BackupManager.suffix].
  destruct c as [[m d] ts]. cbn [fst snd] in *.
  change (BackupManager.mk_entry (file_stem ++ py "_" ++ ts ++ file_suffix) m d)
    with (backup_entry file_stem file_suffix (m, d, ts)) in *.
  assert (Hnames : NoDup (List.map BackupManager.name
                            (es ++ [backup_entry file_stem file_suffix (m, d, ts)]))).
  { rewrite map_app. apply NoDup_app.
    - unfold es. rewrite map_map. cbn [backup_entry BackupManager.name].
      clear -Hnd'. induction calls as [|c calls IH]; [constructor|].
      cbn [List.map] in *. inversion Hnd'; subst. constructor; [|apply IH; assumption].
      intros H. apply H1.
      apply (backup_entry_name_inj file_stem file_suffix c calls).
      rewrite map_map. exact H.
    - repeat constructor. intros [].
    - intros x Hx [<-|[]]. apply Hfresh.
      apply (backup_entry_name_inj file_stem file_suffix (m, d, ts) calls), Hx. }
  rewrite copy2_new.
  2:{ intros H. apply Hfresh.
      apply (backup_entry_name_inj file_stem file_suffix (m, d, ts) calls).
      unfold last_n in H. rewrite <- skipn_map in H.
      apply In_skipn in H. exact H. }
  cbn [fst].
  change (BackupManager.mk_entry (file_stem ++ py "_" ++ ts ++ file_suffix) m d)
    with (backup_entry file_stem file_suffix (m, d, ts)).
  rewrite cleanup_sorted.
  - apply last_n_snoc.
  - rewrite map_app. unfold last_n. rewrite <- skipn_map.
    rewrite map_app in Hnames. cbn [List.map] in *.
    apply NoDup_app.
    + apply NoDup_skipn. apply NoDup_app_remove_r in Hnames. exact Hnames.
    + repeat constructor. intros [].
    + intros x Hx [<-|[]]. apply In_skipn in Hx.
      apply NoDup_remove_2 in Hnames. rewrite app_nil_r in Hnames.
      contradiction.
  - intros e He. apply in_app_or in He. destruct He as [He|[<-|[]]].
    + apply In_skipn in He. unfold es in He. apply in_map_iff in He.
      destruct He as (c' & <- & _). unfold backup_entry.
      cbn [BackupManager.name]. rewrite app_assoc. apply startswith_app.
    + unfold backup_entry. cbn [BackupManager.name].
      rewrite app_assoc. apply startswith_app.
  - rewrite map_app. cbn [List.map backup_entry BackupManager.st_mtime fst].
    apply StronglySorted_snoc. unfold last_n. rewrite <- skipn_map.
    assert (Hm : List.map BackupManager.st_mtime es
                 = List.map (fun c => fst (fst c)) calls).
    { unfold es. rewrite map_map. reflexivity. }
    rewrite Hm. split; [apply StronglySorted_skipn, Hs|].
    rewrite Forall_forall in *. intros y Hy. apply Hlt, (In_skipn _ _ _ Hy).
Qed.

(** ** Pruning of backups *)

(** C9: the claim fails on the code.  Five backups of global.ini are
    taken at five different seconds while the file's modification time
    grows from 10 to 14.  The file is then put back from an older copy,
    which gives it the modification time 5, and a sixth backup is taken.
    [copy2] carries that time over to the backup, the pruning sorts by
    it, and the backup just created is the one deleted: the directory
    still holds the five earlier backups, and the name [create_backup]
    returns is not in it.  Six backups taken within one second share a
    name and leave a single entry. *)
Theorem newest_backup_is_pruned :
  let stamp := fun n : string => py "20240101_00000" ++ py n in
  let name_of := fun n : string => py "global_" ++ stamp n ++ py ".ini" in
  let five_calls :=
    [(global_ini 10, stamp "1"%string); (global_ini 11, stamp "2"%string);
     (global_ini 12, stamp "3"%string); (global_ini 13, stamp "4"%string);
     (global_ini 14, stamp "5"%string)] in
  let dir5 := backups_after [] five_calls in
  let dir6 := backups_after [] (five_calls ++ [(global_ini 5, stamp "6"%string)]) in
  snd (BackupManager.create_backup dir5 (global_ini 5) (stamp "6"%string))
  = Some (name_of "6"%string) /\
  List.map BackupManager.name
           (BackupManager.glob_stem dir6 (py "global"))
  = [name_of "1"%string; name_of "2"%string; name_of "3"%string; name_of "4"%string; name_of "5"%string] /\
  ~ In (name_of "6"%string) (List.map BackupManager.name dir6) /\
  List.map BackupManager.name
    (backups_after []
       [(global_ini 10, stamp "1"%string); (global_ini 11, stamp "1"%string);
        (global_ini 12, stamp "1"%string); (global_ini 13, stamp "1"%string);
        (global_ini 14, stamp "1"%string); (global_ini 15, stamp "1"%string)])
  = [name_of "1"%string].
Proof.
  cbv zeta. split; [reflexivity|]. split; [reflexivity|].
  split; [|reflexivity].
  vm_compute. intuition discriminate.
Qed.

(* ================================================================== *)
(** * Part III: further properties of the program *)
(* ================================================================== *)

(** ** BackupManager: listing and pruning *)

Lemma insert_desc_perm (e : BackupManager.entry)
      (s : list BackupManager.entry) :
  Permutation (BackupManager.insert_desc e s) (e :: s).
Proof.
  induction s as [|e' s IH]; cbn [BackupManager.insert_desc]; [reflexivity|].
  destruct (BackupManager.st_mtime e' <=? BackupManager.st_mtime e);
    [reflexivity|].
  rewrite IH. apply perm_swap.
Qed.

Lemma sorted_desc_perm (l : list BackupManager.entry) :
  Permutation (BackupManager.sorted_desc l) l.
Proof.
  unfold BackupManager.sorted_desc.
  induction l as [|e l IH]; cbn [fold_right]; [reflexivity|].
  rewrite insert_desc_perm, IH. reflexivity.
Qed.

Lemma insert_desc_sorted (e : BackupManager.entry)
      (s : list BackupManager.entry) :
  StronglySorted (fun a b => BackupManager.st_mtime b <= BackupManager.st_mtime a) s ->
  StronglySorted (fun a b => BackupManager.st_mtime b <= BackupManager.st_mtime a)
                 (BackupManager.insert_desc e s).
Proof.
  induction 1 as [|e' s Hs IH Hall]; cbn [BackupManager.insert_desc].
  - repeat constructor.
  - destruct (N.leb_spec (BackupManager.st_mtime e') (BackupManager.st_mtime e))
      as [Hle|Hgt].
    + constructor; [constructor; assumption|].
      constructor; [exact Hle|].
      rewrite Forall_forall in *. intros x Hx. specialize (Hall x Hx). lia.
    + constructor; [exact IH|].
      rewrite Forall_forall in *. intros x Hx.
      apply (Permutation_in _ (insert_desc_perm e s)) in Hx.
      destruct Hx as [<-|Hx]; [lia | apply Hall, Hx].
Qed.

Lemma sorted_desc_sorted (l : list BackupManager.entry) :
  StronglySorted (fun a b => BackupManager.st_mtime b <= BackupManager.st_mtime a)
                 (BackupManager.sorted_desc l).
Proof.
  unfold BackupManager.sorted_desc.
  induction l as [|e l IH]; cbn [fold_right]; [constructor|].
  apply insert_desc_sorted, IH.
Qed.

(** X1: [list_backups] returns every entry of the backup directory
    exactly once, the most recently modified first. *)
Theorem list_backups_sorted (dir : BackupManager.directory) :
  Permutation (BackupManager.list_backups dir) dir /\
  StronglySorted
    (fun a b => BackupManager.st_mtime b <= BackupManager.st_mtime a)
    (BackupManager.list_backups dir).
Proof.
  split; [apply sorted_desc_perm | apply sorted_desc_sorted].
Qed.





Lemma cleanup_as_filter (dir : BackupManager.directory) (file_stem : str)
      (keep : nat) :
  BackupManager._cleanup_old_backups dir file_stem keep =
  filter (fun e =>
            negb (set_mem (BackupManager.name e)
                    (List.map BackupManager.name
                       (skipn keep (BackupManager.sorted_desc
                                      (BackupManager.glob_stem dir file_stem))))))
         dir.
Proof. unfold BackupManager._cleanup_old_backups. apply fold_unlink. Qed.










(** ** Restoring a backup *)

Lemma lookup_copy2 (dir : BackupManager.directory) (n : str) (m : N)
      (d : bytes) :
  Restore.lookup (BackupManager.copy2 dir n m d) n
  = Some (BackupManager.mk_entry n m d).
Proof.
  unfold Restore.lookup.
  induction dir as [|e dir IH]; cbn [BackupManager.copy2 find].
  - cbn [BackupManager.name]. rewrite str_eqb_refl. reflexivity.
  - destruct (str_eqb (BackupManager.name e) n) eqn:E; cbn [find].
    + cbn [BackupManager.name]. rewrite str_eqb_refl. reflexivity.
    + rewrite E. exact IH.
Qed.

Lemma lookup_filter_names (l : BackupManager.directory) (names : list str)
      (n : str) :
  Restore.lookup
    (filter (fun e => negb (set_mem (BackupManager.name e) names)) l) n
  = if set_mem n names then None else Restore.lookup l n.
Proof.
  unfold Restore.lookup. induction l as [|e l IH]; cbn [filter find].
  - destruct (set_mem n names); reflexivity.
  - destruct (str_eqb (BackupManager.name e) n) eqn:E.
    + apply str_eqb_eq in E. rewrite E.
      destruct (set_mem n names) eqn:Es; cbn [negb].
      * rewrite IH, ?Es. reflexivity.
      * cbn [find]. rewrite E, str_eqb_refl. reflexivity.
    + destruct (set_mem (BackupManager.name e) names); cbn [negb find];
        rewrite ?E; exact IH.
Qed.

Lemma lookup_none (dir : BackupManager.directory) (p : str) :
  Restore.lookup dir p = None <-> ~ In p (List.map BackupManager.name dir).
Proof.
  unfold Restore.lookup. induction dir as [|e dir IH]; cbn [find List.map].
  - split; [intros _ [] | reflexivity].
  - destruct (str_eqb (BackupManager.name e) p) eqn:E.
    + apply str_eqb_eq in E. split; [discriminate|].
      intros H. exfalso. apply H. left. exact E.
    + apply str_eqb_neq in E. rewrite IH. cbn [In]. tauto.
Qed.

Lemma restore_after_create (dir : BackupManager.directory)
      (file_path : BackupManager.source) (timestamp : str) (st : N * bytes) :
  BackupManager.stat file_path = Some st ->
  let backup_path :=
    BackupManager.stem file_path ++ py "_" ++ timestamp
    ++ BackupManager.suffix file_path in
  let dir' := fst (BackupManager.create_backup dir file_path timestamp) in
  Restore.restore dir' backup_path true = Restore.Done st \/
  (Restore.restore dir' backup_path true = Restore.FileNotFoundError /\
   ~ In backup_path (List.map BackupManager.name dir')).
Proof.
  intros Hstat backup_path dir'.
  assert (Hl : Restore.lookup dir' backup_path = None \/
               Restore.lookup dir' backup_path
               = Some (BackupManager.mk_entry backup_path (fst st) (snd st))).
  { unfold dir', BackupManager.create_backup. rewrite Hstat.
    destruct st as [mtime data]. cbn [fst snd].
    rewrite cleanup_as_filter, lookup_filter_names.
    destruct (set_mem _ _); [left; reflexivity|].
    right. apply lookup_copy2. }
  unfold Restore.restore. destruct Hl as [Hl|Hl]; rewrite Hl.
  - right. split; [reflexivity | apply lookup_none, Hl].
  - left. destruct st; reflexivity.
Qed.






(** X5: [apply_to_game] leaves the game file with the modification time
    and content of the merged file.  When the game file existed, a
    following [restore] of the backup taken (into the game's directory,
    which is there by then) brings its old state back, unless that
    backup was pruned at once; when it did not exist, the
    backup directory is untouched.  A missing merged file raises only
    after the backup was taken. *)
Theorem apply_to_game_overwrites_after_backup
        (dir : BackupManager.directory) (target_file : BackupManager.source)
        (merged : N * bytes) (timestamp : str) :
  snd (Restore.apply_to_game dir target_file (Some merged) timestamp)
  = Restore.Done merged /\
  fst (Restore.apply_to_game dir target_file None timestamp)
  = fst (Restore.apply_to_game dir target_file (Some merged) timestamp) /\
  (BackupManager.stat target_file = None ->
   fst (Restore.apply_to_game dir target_file (Some merged) timestamp) = dir) /\
  (forall old : N * bytes,
      BackupManager.stat target_file = Some old ->
      let dir' :=
        fst (Restore.apply_to_game dir target_file (Some merged) timestamp) in
      let backup_path :=
        BackupManager.stem target_file ++ py "_" ++ timestamp
        ++ BackupManager.suffix target_file in
      Restore.restore dir' backup_path true = Restore.Done old \/
      (Restore.restore dir' backup_path true = Restore.FileNotFoundError /\
       ~ In backup_path (List.map BackupManager.name dir'))).
Proof.
  unfold Restore.apply_to_game. cbn [fst snd].
  split; [reflexivity|]. split; [reflexivity|]. split.
  - intros ->. reflexivity.
  - intros old Hold. cbv zeta. rewrite Hold.
    apply (restore_after_create dir target_file timestamp old Hold).
Qed.

Lemma apply_to_game_overwrites_after_backup_witness :
  Restore.restore
    (fst (Restore.apply_to_game [] (global_ini 10) (Some (20, py "a=X"))
                                (py "20240101_000001")))
    (py "global_20240101_000001.ini") true = Restore.Done (10, []).
Proof.
  destruct (apply_to_game_overwrites_after_backup
              [] (global_ini 10) (20, py "a=X") (py "20240101_000001"))
    as (_ & _ & _ & H).
  destruct (H (10, []) eq_refl) as [Hr|[Hr _]]; [exact Hr|].
  vm_compute in Hr. discriminate.
Defined.

(** ** What [parse] returns can be written and read back *)

Lemma In_lstrip (c : char) (s : str) : In c (lstrip s) -> In c s.
Proof.
  induction s as [|x s IH]; cbn [lstrip]; [tauto|].
  destruct (isspace x); [intros H; right; exact (IH H) | tauto].
Qed.

Lemma In_strip (c : char) (s : str) : In c (strip s) -> In c s.
Proof.
  unfold strip, rstrip. intros H.
  apply in_rev in H. apply In_lstrip in H. apply in_rev in H.
  apply In_lstrip, H.
Qed.

Lemma strip_snoc_LF (w : str) : strip (w ++ [LF]) = strip w.
Proof.
  unfold strip. rewrite lstrip_app.
  destruct (lstrip w) as [|c l] eqn:E; [reflexivity|].
  apply rstrip_snoc_space. reflexivity.
Qed.

Lemma universal_newlines_chars (n : nat) :
  forall s : str, (length s <= n)%nat ->
    forall c, In c (universal_newlines s) -> c <> CR /\ (c = LF \/ In c s).
Proof.
  induction n as [|n IH]; intros s Hlen c.
  - destruct s; [intros [] | cbn [length] in Hlen; lia].
  - destruct s as [|x s]; [intros []|]. cbn [length] in Hlen.
    cbn [universal_newlines].
    destruct (x =? CR) eqn:Ex.
    + destruct s as [|y s].
      * intros [<-|[]]. split; [discriminate | left; reflexivity].
      * cbn [length] in Hlen. destruct (y =? LF) eqn:Ey.
        -- intros [<-|H]; [split; [discriminate | left; reflexivity]|].
           destruct (IH s ltac:(lia) c H) as [H1 [H2|H2]];
             (split; [exact H1|]); [left; exact H2 | right; right; right; exact H2].
        -- intros [<-|H]; [split; [discriminate | left; reflexivity]|].
           destruct (IH (y :: s) ltac:(cbn [length]; lia) c H) as [H1 [H2|H2]];
             (split; [exact H1|]); [left; exact H2 | right; right; exact H2].
    + apply N.eqb_neq in Ex. intros [<-|H].
      * split; [exact Ex | right; left; reflexivity].
      * destruct (IH s ltac:(lia) c H) as [H1 [H2|H2]];
          (split; [exact H1|]); [left; exact H2 | right; right; exact H2].
Qed.

Lemma readlines_lines (t : str) :
  forall l : str, In l (readlines t) ->
    exists w : str,
      (l = w ++ [LF] \/ l = w) /\ ~ In LF w /\ forall c, In c w -> In c t.
Proof.
  induction t as [|x t IH]; intros l; cbn [readlines]; [intros []|].
  destruct (x =? LF) eqn:Ex.
  - intros [<-|H].
    + exists []. split; [left; reflexivity|]. split; [intros [] | intros ? []].
    + destruct (IH l H) as (w & Hw & Hn & Hi). exists w.
      split; [exact Hw|]. split; [exact Hn|]. intros c Hc. right. exact (Hi c Hc).
  - apply N.eqb_neq in Ex.
    destruct (readlines t) as [|l0 ls] eqn:E.
    + intros [<-|[]]. exists [x]. split; [right; reflexivity|].
      split; [intros [H|[]]; congruence|]. intros c [<-|[]]. left. reflexivity.
    + intros [<-|H].
      * destruct (IH l0 (or_introl eq_refl)) as (w & Hw & Hn & Hi).
        exists (x :: w). split; [destruct Hw as [->| ->]; [left|right]; reflexivity|].
        split; [intros [H|H]; [congruence | exact (Hn H)]|].
        intros c [<-|Hc]; [left; reflexivity | right; exact (Hi c Hc)].
      * destruct (IH l (or_intror H)) as (w & Hw & Hn & Hi). exists w.
        split; [exact Hw|]. split; [exact Hn|].
        intros c Hc. right. exact (Hi c Hc).
Qed.

Lemma strip_keeps_head (a rest : str) :
  head_not_space (a ++ rest) -> strip a <> [] ->
  exists (c : char) (t : str),
    strip a = c :: t /\ forall p, startswith (a ++ rest) [p] = (c =? p).
Proof.
  intros Hh Hne. destruct a as [|c a]; [exfalso; apply Hne; reflexivity|].
  cbn [app head_not_space] in Hh.
  assert (Hs : strip (c :: a) = c :: rstrip a \/ strip (c :: a) = [c]).
  { unfold strip. rewrite (lstrip_id (c :: a)) by exact Hh.
    rewrite rstrip_cons, Hh. destruct (rstrip a); [right | left]; reflexivity. }
  destruct Hs as [Hs|Hs]; rewrite Hs; eexists; eexists;
    (split; [reflexivity|]); intros p; rewrite startswith_single; reflexivity.
Qed.

Lemma Forall_dict_set (P : str * str -> Prop) (d : dict) (k v : str) :
  Forall P d -> P (k, v) -> Forall P (dict_set d k v).
Proof.
  intros Hd Hkv. induction Hd as [|[k' v'] d Hx Hd IH]; cbn [dict_set].
  - repeat constructor. exact Hkv.
  - destruct (str_eqb k' k) eqn:E.
    + apply str_eqb_eq in E. subst. constructor; assumption.
    + constructor; assumption.
Qed.

Lemma parse_line_plain (data : dict) (line : str) :
  Forall (fun kv => plain_key (fst kv) /\ plain_value (snd kv)) data ->
  (forall c, In c (strip line) ->
             c <> LF /\ c <> CR /\ c <= 0x10FFFF /\ is_surrogate c = false) ->
  Forall (fun kv => plain_key (fst kv) /\ plain_value (snd kv))
         (INIParser.parse_line data line).
Proof.
  intros Hdata Hline.
  destruct (parse_line_entry data line) as [e [He ->]].
  destruct He as [| | | |l a b Hs Hna Hk Hh Hsc]; try exact Hdata.
  assert (Ha : forall c, In c (strip a) -> In c (strip l)).
  { intros c Hc. rewrite Hs. apply in_or_app. left. apply In_strip, Hc. }
  assert (Hb : forall c, In c (strip b) -> In c (strip l)).
  { intros c Hc. rewrite Hs. apply in_or_app. right. right.
    apply In_strip, Hc. }
  apply Forall_dict_set; [exact Hdata|]. cbn [fst snd]. split.
  - unfold plain_key, trimmed, encodable.
    split; [exact Hk|]. split; [apply strip_idem|].
    split; [apply Forall_forall; intros c Hc; apply (Hline c (Ha c Hc))|].
    split; [intros H; apply Hna, In_strip, H|].
    split; [intros H; apply (proj1 (Hline _ (Ha _ H))); reflexivity|].
    split; [intros H; apply (proj1 (proj2 (Hline _ (Ha _ H)))); reflexivity|].
    pose proof (strip_head l) as Hhead. rewrite Hs in Hhead.
    destruct (strip_keeps_head a (EQUALS :: b) Hhead Hk) as (c & t & Est & Hst).
    rewrite Hs in Hh, Hsc. rewrite Hst in Hh, Hsc.
    rewrite Est, !startswith_single. split; assumption.
  - unfold plain_value, trimmed, encodable.
    split; [apply strip_idem|].
    split; [apply Forall_forall; intros c Hc; apply (Hline c (Hb c Hc))|].
    split; [intros H; apply (proj1 (Hline _ (Hb _ H))); reflexivity|].
    intros H; apply (proj1 (proj2 (Hline _ (Hb _ H)))); reflexivity.
Qed.

Lemma fold_parse_line_plain (ls : list str) :
  forall d : dict,
    Forall (fun kv => plain_key (fst kv) /\ plain_value (snd kv)) d ->
    (forall l, In l ls -> forall c, In c (strip l) ->
       c <> LF /\ c <> CR /\ c <= 0x10FFFF /\ is_surrogate c = false) ->
    Forall (fun kv => plain_key (fst kv) /\ plain_value (snd kv))
           (fold_left INIParser.parse_line ls d).
Proof.
  induction ls as [|l ls IH]; intros d Hd Hlines; [exact Hd|].
  cbn [fold_left]. apply IH.
  - apply parse_line_plain; [exact Hd|]. apply Hlines. left. reflexivity.
  - intros l' Hl'. apply Hlines. right. exact Hl'.
Qed.

Lemma parse_text_plain (text : str) :
  encodable text ->
  Forall (fun kv => plain_key (fst kv) /\ plain_value (snd kv))
         (INIParser.parse_text text).
Proof.
  intros Henc. unfold INIParser.parse_text.
  assert (Hlines : forall l, In l (readlines (universal_newlines text)) ->
            forall c, In c (strip l) ->
              c <> LF /\ c <> CR /\ c <= 0x10FFFF /\ is_surrogate c = false).
  { intros l Hl c Hc.
    destruct (readlines_lines _ l Hl) as (w & Hw & Hn & Hi).
    assert (Hcw : In c w).
    { destruct Hw as [->| ->]; [rewrite strip_snoc_LF in Hc|];
        apply In_strip, Hc. }
    assert (Hlf : c <> LF) by (intros ->; exact (Hn Hcw)).
    destruct (universal_newlines_chars _ text (le_n _) c (Hi c Hcw))
      as [Hcr [H|H]]; [congruence|].
    unfold encodable in Henc. rewrite Forall_forall in Henc.
    destruct (Henc c H). repeat split; assumption. }
  apply fold_parse_line_plain; [constructor | exact Hlines].
Qed.

Lemma bind_ok {A B : Type} (r : result A) (f : A -> result B) (b : B) :
  bind r f = Ok b -> exists a, r = Ok a /\ f a = Ok b.
Proof. destruct r as [a|e]; [intros H; exists a; auto | discriminate]. Qed.

Lemma utf8_decode_encodable (n : nat) :
  forall (bs : bytes) (s : str),
    (length bs <= n)%nat -> utf8_decode bs = Ok s -> encodable s.
Proof.
  induction n as [|n IH]; intros bs s Hlen H.
  - destruct bs; [|cbn [length] in Hlen; lia].
    injection H as <-. constructor.
  - destruct bs as [|b0 r0]; [injection H as <-; constructor|].
    cbn [length] in Hlen. cbn [utf8_decode] in H.
    destruct (N.ltb_spec b0 0x80) as [H0|H0].
    { apply bind_ok in H. destruct H as (s0 & Hs0 & E). injection E as <-.
      apply encodable_cons. split; [|apply (IH r0 s0); [lia | exact Hs0]].
      split; [lia | apply not_surrogate_range; lia]. }
    destruct ((0xC2 <=? b0) && (b0 <=? 0xDF)) eqn:H2.
    { apply andb_true_iff in H2. rewrite !N.leb_le in H2.
      destruct r0 as [|b1 r1]; [discriminate|].
      destruct (is_cont b1) eqn:C1; [|discriminate].
      unfold is_cont in C1. apply andb_true_iff in C1. rewrite !N.leb_le in C1.
      cbn [length] in Hlen.
      apply bind_ok in H. destruct H as (s0 & Hs0 & E). injection E as <-.
      apply encodable_cons. split; [|apply (IH r1 s0); [lia | exact Hs0]].
      split; [lia | apply not_surrogate_range; lia]. }
    destruct ((0xE0 <=? b0) && (b0 <=? 0xEF)) eqn:H3.
    { destruct r0 as [|b1 [|b2 r2]]; try discriminate.
      cbv zeta in H.
      destruct (is_cont b1 && is_cont b2
                && (0x800 <=? (b0 - 0xE0) * 4096 + (b1 - 0x80) * 64 + (b2 - 0x80))
                && negb (is_surrogate
                           ((b0 - 0xE0) * 4096 + (b1 - 0x80) * 64 + (b2 - 0x80))))
        eqn:C; [|discriminate].
      rewrite !andb_true_iff in C. destruct C as [[[C1 C2] _] Cs].
      apply negb_true_iff in Cs.
      apply andb_true_iff in H3. rewrite !N.leb_le in H3.
      unfold is_cont in C1, C2. apply andb_true_iff in C1, C2.
      rewrite !N.leb_le in C1, C2.
      cbn [length] in Hlen.
      apply bind_ok in H. destruct H as (s0 & Hs0 & E). injection E as <-.
      apply encodable_cons. split; [|apply (IH r2 s0); [lia | exact Hs0]].
      split; [lia | exact Cs]. }
    destruct ((0xF0 <=? b0) && (b0 <=? 0xF4)) eqn:H4; [|discriminate].
    destruct r0 as [|b1 [|b2 [|b3 r3]]]; try discriminate.
    cbv zeta in H.
    destruct (is_cont b1 && is_cont b2 && is_cont b3
              && (0x10000 <=? (b0 - 0xF0) * 262144 + (b1 - 0x80) * 4096
                              + (b2 - 0x80) * 64 + (b3 - 0x80))
              && ((b0 - 0xF0) * 262144 + (b1 - 0x80) * 4096
                  + (b2 - 0x80) * 64 + (b3 - 0x80) <=? 0x10FFFF))
      eqn:C; [|discriminate].
    rewrite !andb_true_iff in C. destruct C as [[_ Clo] Chi].
    apply N.leb_le in Clo, Chi.
    cbn [length] in Hlen.
    apply bind_ok in H. destruct H as (s0 & Hs0 & E). injection E as <-.
    apply encodable_cons. split; [|apply (IH r3 s0); [lia | exact Hs0]].
    split; [exact Chi | apply not_surrogate_range; lia].
Qed.

Lemma utf8_sig_decode_encodable (bs : bytes) (s : str) :
  utf8_sig_decode bs = Ok s -> encodable s.
Proof.
  unfold utf8_sig_decode.
  destruct bs as [|b0 [|b1 [|b2 rest]]].
  - apply (utf8_decode_encodable _ _ _ (le_n _)).
  - destruct (b0 =? 0xEF);
      [intros H; injection H as <-; constructor
      | apply (utf8_decode_encodable _ _ _ (le_n _))].
  - destruct ((b0 =? 0xEF) && (b1 =? 0xBB));
      [intros H; injection H as <-; constructor
      | apply (utf8_decode_encodable _ _ _ (le_n _))].
  - destruct ((b0 =? 0xEF) && (b1 =? 0xBB) && (b2 =? 0xBF));
      apply (utf8_decode_encodable _ _ _ (le_n _)).
Qed.

Lemma plain_dict_roundtrip (data : dict) :
  plain_dict data ->
  exists file : bytes,
    INIParser.write data = Ok file /\ INIParser.parse file = Ok data.
Proof.
  intros Hplain. pose proof Hplain as (Hnd & Hall & _).
  pose proof (encodable_translate _ (encodable_render data Hall)) as Henc.
  destruct (utf8_roundtrip _ Henc) as (file & Hw & Hr).
  exists file. split; [exact Hw|].
  unfold INIParser.parse.
  rewrite (utf8_encode_no_bom _ file (render_no_bom data Hplain) Hw), Hr.
  cbn [bind]. f_equal. unfold INIParser.parse_text.
  rewrite (universal_translate _ (render_no_cr data Hall)).
  rewrite readlines_render.
  - apply (fold_parse_rendered data []); assumption.
  - intros k v Hin. rewrite Forall_forall in Hall.
    destruct (Hall (k, v) Hin) as [Hk Hv]. cbn [fst snd] in Hk, Hv.
    destruct Hk as (_ & _ & _ & _ & Hk & _). destruct Hv as (_ & _ & Hv & _).
    split; assumption.
Qed.

Lemma parse_plain (file : bytes) (data : dict) :
  INIParser.parse file = Ok data ->
  NoDup (dict_keys data) /\
  Forall (fun kv => plain_key (fst kv) /\ plain_value (snd kv)) data.
Proof.
  unfold INIParser.parse. intros H. apply bind_ok in H.
  destruct H as (text & Hd & E). injection E as <-. split.
  - apply parse_text_invariant.
  - apply parse_text_plain, (utf8_sig_decode_encodable file), Hd.
Qed.

(** X6: a map that [parse] returned is written by [write] without error
    and read back unchanged, provided its first key does not begin with
    the byte-order mark (which [parse] would take for the mark of the
    file). *)
Theorem parsed_map_roundtrips (file : bytes) (data : dict)
        (Hparse : INIParser.parse file = Ok data)
        (Hbom : match data with
                | (k, _) :: _ => startswith k [BOM] = false
                | [] => True
                end) :
  exists file' : bytes,
    INIParser.write data = Ok file' /\ INIParser.parse file' = Ok data.
Proof.
  apply plain_dict_roundtrip. destruct (parse_plain file data Hparse).
  repeat split; assumption.
Qed.

Lemma parsed_map_roundtrips_witness :
  exists file' : bytes,
    INIParser.write [(py "a", py "3=4"); (py "b", py "2")] = Ok file' /\
    INIParser.parse file' = Ok [(py "a", py "3=4"); (py "b", py "2")].
Proof.
  apply (parsed_map_roundtrips
           ([0xEF; 0xBB; 0xBF] ++ py " a = 1" ++ [CR] ++ py "; note" ++ [LF]
            ++ py "b=2 " ++ [CR; LF] ++ py "a=3=4")).
  - reflexivity.
  - reflexivity.
Defined.

Lemma overlay_plain (d : dict) (ts : list Translation.t) :
  Forall (fun kv => plain_key (fst kv) /\ plain_value (snd kv)) d ->
  (forall t, In t ts -> plain_value (Translation.translated t)) ->
  Forall (fun kv => plain_key (fst kv) /\ plain_value (snd kv)) (overlay d ts).
Proof.
  intros Hd Hts. induction Hd as [|[k v] d [Hk Hv] Hd IH]; [constructor|].
  rewrite overlay_cons. constructor; [|exact IH]. cbn [fst snd] in *.
  split; [exact Hk|].
  destruct (last_translation ts k) as [t|] eqn:E; [|exact Hv].
  unfold last_translation in E. apply find_some in E.
  apply Hts, in_rev, (proj1 E).
Qed.

(** X7: when every translated text is trimmed, free of line breaks and
    encodable, the file [merge] writes parses back to exactly the merged
    map it returns (the first key not beginning with the byte-order
    mark). *)
Theorem merge_output_parses_back {rt : PyRuntime} (source_file : bytes)
        (translations : list Translation.t) (validate : bool)
        (o : TranslationMerger.outcome)
        (Hmerge : TranslationMerger.merge source_file translations validate
                  = Ok o)
        (Htexts : forall t, In t translations ->
                            plain_value (Translation.translated t))
        (Hbom : match TranslationMerger.merged_data o with
                | (k, _) :: _ => startswith k [BOM] = false
                | [] => True
                end) :
  INIParser.parse (TranslationMerger.output_file o)
  = Ok (TranslationMerger.merged_data o).
Proof.
  rewrite merge_closed_form in Hmerge.
  apply bind_ok in Hmerge. destruct Hmerge as (source_data & Hp & Hmerge).
  apply bind_ok in Hmerge. destruct Hmerge as (reported & _ & Hmerge).
  apply bind_ok in Hmerge. destruct Hmerge as (written & Hw & E).
  injection E as <-. cbn [TranslationMerger.merged_data
                           TranslationMerger.output_file] in *.
  destruct (parse_plain _ _ Hp) as [Hnd Hall].
  destruct (plain_dict_roundtrip (overlay source_data translations))
    as (file' & Hw' & Hp').
  - split; [rewrite overlay_keys; exact Hnd|].
    split; [apply overlay_plain; assumption | exact Hbom].
  - rewrite Hw in Hw'. injection Hw' as <-. exact Hp'.
Qed.

Lemma merge_output_parses_back_witness :
  INIParser.parse (py "a=X" ++ [CR; LF] ++ py "b=2" ++ [CR; LF])
  = Ok [(py "a", py "X"); (py "b", py "2")].
Proof.
  apply (merge_output_parses_back
           (rt := sample_runtime)
           (py "a=1" ++ [LF] ++ py "b=2" ++ [LF])
           [Translation.mk (py "a") (py "1") (py "X") (py "general") []] true
           (TranslationMerger.mk_outcome
              [(py "a", py "X"); (py "b", py "2")] [] 1 []
              (py "a=X" ++ [CR; LF] ++ py "b=2" ++ [CR; LF]))).
  - reflexivity.
  - intros t [<-|[]]. unfold plain_value, trimmed, encodable.
    cbn [Translation.translated].
    repeat split; try reflexivity; repeat constructor; try discriminate;
      simpl; intuition discriminate.
  - reflexivity.
Defined.

(** ** The special-character and encoding checks *)

Lemma startswith_prefix (s p : str) :
  startswith s p = true <-> exists r, s = p ++ r.
Proof.
  revert s. induction p as [|c p IH]; intros s.
  - split; [intros _; exists s; reflexivity | intros _; destruct s; reflexivity].
  - destruct s as [|x s]; cbn [startswith].
    + split; [discriminate | intros [r H]; discriminate].
    + rewrite andb_true_iff, N.eqb_eq, IH. split.
      * intros [-> [r ->]]. exists r. reflexivity.
      * intros [r H]. injection H as -> ->. split; [reflexivity | exists r; reflexivity].
Qed.

Lemma str_in_substring (needle s : str) :
  str_in needle s = true <-> exists a b, s = a ++ needle ++ b.
Proof.
  induction s as [|x s IH]; cbn [str_in]; rewrite orb_true_iff.
  - rewrite startswith_prefix. split.
    + intros [[r H]|H]; [|discriminate]. exists [], r. exact H.
    + intros (a & b & H). left. destruct a; [|discriminate].
      exists b. exact H.
  - rewrite startswith_prefix, IH. split.
    + intros [[r H]|(a & b & H)].
      * exists [], r. exact H.
      * exists (x :: a), b. rewrite H. reflexivity.
    + intros (a & b & H). destruct a as [|y a].
      * left. exists b. exact H.
      * right. injection H as -> ->. exists a, b. reflexivity.
Qed.

(** X8: the special-character check returns one INFO diagnostic for the
    record's key when the translated text holds a newline character or a
    backslash followed by the letter n, and nothing otherwise. *)
Theorem check_special_chars_newlines (trans : Translation.t) :
  let text := Translation.translated trans in
  let note :=
    ValidationResult.mk INFO
      (py "'" ++ Translation.key trans
       ++ py "' contains newlines - verify formatting")
      (Some (Translation.key trans)) in
  ((In LF text \/ exists a b, text = a ++ [BACKSLASH; 110] ++ b) ->
   TranslationValidator._check_special_chars trans = [note]) /\
  (~ (In LF text \/ exists a b, text = a ++ [BACKSLASH; 110] ++ b) ->
   TranslationValidator._check_special_chars trans = []).
Proof.
  intros text note.
  assert (Hiff : str_in [BACKSLASH; 110] text || str_in [LF] text = true <->
                 (In LF text \/ exists a b, text = a ++ [BACKSLASH; 110] ++ b)).
  { rewrite orb_true_iff, !str_in_substring. split.
    - intros [H|(a & b & H)]; [right; exact H|].
      left. rewrite H. apply in_or_app. right. left. reflexivity.
    - intros [H|H]; [|left; exact H]. right.
      apply in_split in H. destruct H as (a & b & H). exists a, b. exact H. }
  unfold TranslationValidator._check_special_chars. fold text. cbv zeta.
  destruct (str_in [BACKSLASH; 110] text || str_in [LF] text) eqn:E.
  - split; [reflexivity|]. intros H. exfalso. apply H, Hiff. reflexivity.
  - split; [|reflexivity]. intros H. apply Hiff in H. discriminate.
Qed.

Lemma check_special_chars_newlines_witness :
  TranslationValidator._check_special_chars
    (Translation.mk (py "tip") [] (py "line one\nline two") (py "ui") [])
  = [ValidationResult.mk INFO
       (py "'tip' contains newlines - verify formatting") (Some (py "tip"))] /\
  TranslationValidator._check_special_chars
    (Translation.mk (py "tip") [] (py "one line") (py "ui") [])
  = [].
Proof.
  split.
  - apply (check_special_chars_newlines
             (Translation.mk (py "tip") [] (py "line one\nline two") (py "ui") [])).
    right. exists (py "line one"), (py "line two"). reflexivity.
  - apply (check_special_chars_newlines
             (Translation.mk (py "tip") [] (py "one line") (py "ui") [])).
    intros [H|(a & b & H)].
    + vm_compute in H. intuition discriminate.
    + assert (Hs : str_in [BACKSLASH; 110] (py "one line") = true)
        by (apply str_in_substring; exists a, b; exact H).
      vm_compute in Hs. discriminate.
Defined.

Lemma utf8_encode_char_ok_inv (c : char) (b : bytes) :
  utf8_encode_char c = Ok b -> is_surrogate c = false.
Proof.
  unfold utf8_encode_char.
  destruct (N.ltb_spec c 0x80); [intros _; apply not_surrogate_range; lia|].
  destruct (N.ltb_spec c 0x800); [intros _; apply not_surrogate_range; lia|].
  destruct (N.ltb_spec c 0x10000).
  - destruct (is_surrogate c); [discriminate | reflexivity].
  - intros _. apply not_surrogate_range. lia.
Qed.

Lemma utf8_encode_ok_inv (s : str) (bs : bytes) :
  utf8_encode s = Ok bs -> no_surrogate s.
Proof.
  revert bs. induction s as [|c s IH]; intros bs H; [constructor|].
  cbn [utf8_encode] in H. apply bind_ok in H. destruct H as (b & Hb & H).
  apply bind_ok in H. destruct H as (bs' & Hs & _).
  constructor; [exact (utf8_encode_char_ok_inv c b Hb) | exact (IH bs' Hs)].
Qed.

(** X9: the encoding check returns nothing exactly when the translated
    text holds no surrogate code point; otherwise it returns one ERROR
    diagnostic for the record's key. *)
Theorem check_encoding_surrogates {rt : PyRuntime} (trans : Translation.t) :
  (TranslationValidator._check_encoding trans = [] <->
   no_surrogate (Translation.translated trans)) /\
  (TranslationValidator._check_encoding trans = [] \/
   TranslationValidator._check_encoding trans =
   [ValidationResult.mk ERROR
      (py "'" ++ Translation.key trans
       ++ py "' contains character that can't be encoded: "
       ++ encode_error_str (Translation.translated trans))
      (Some (Translation.key trans))]).
Proof.
  unfold TranslationValidator._check_encoding. cbv zeta.
  destruct (utf8_encode (Translation.translated trans)) as [bs|e] eqn:E.
  - split; [|left; reflexivity].
    split; [intros _; exact (utf8_encode_ok_inv _ _ E) | reflexivity].
  - split; [|right; reflexivity].
    split; [discriminate|]. intros H.
    destruct (utf8_encode_ok _ H) as [bs Hbs]. congruence.
Qed.

Lemma check_encoding_surrogates_witness :
  TranslationValidator._check_encoding
    (rt := sample_runtime)
    (Translation.mk (py "k") [] (py "caf" ++ [0xE9]) (py "ui") []) = [].
Proof.
  apply (check_encoding_surrogates (rt := sample_runtime)).
  unfold no_surrogate. cbn [Translation.translated].
  repeat constructor.
Defined.

(** ** The matcher finds the tokens that are there *)

Lemma findall_brace_token (a body b : str) :
  ~ In LBRACE a -> ~ In PERCENT a -> body <> [] -> ~ In RBRACE body ->
  Re.findall TranslationValidator.placeholder
             (a ++ LBRACE :: body ++ RBRACE :: b)
  = (LBRACE :: body ++ [RBRACE])
      :: Re.findall TranslationValidator.placeholder b.
Proof.
  intros Ha1 Ha2 Hne Hn. unfold Re.findall.
  rewrite scan_no_start by assumption.
  cbn [Re.scan]. rewrite (match_brace_token body b Hne Hn).
  replace (length (LBRACE :: body ++ RBRACE :: b) - length b)%nat
    with (length (LBRACE :: body ++ [RBRACE])).
  2:{ cbn [length]. rewrite !length_app. cbn [length]. lia. }
  f_equal.
  - replace (LBRACE :: body ++ RBRACE :: b)
      with ((LBRACE :: body ++ [RBRACE]) ++ b)
      by (cbn [app]; rewrite <- app_assoc; reflexivity).
    rewrite firstn_app, Nat.sub_diag, firstn_all. cbn [firstn].
    apply app_nil_r.
  - replace (body ++ RBRACE :: b) with ((body ++ [RBRACE]) ++ b)
      by (rewrite <- app_assoc; reflexivity).
    replace (length (LBRACE :: body ++ [RBRACE]) - 1)%nat
      with (length (body ++ [RBRACE])) by (cbn [length]; lia).
    apply scan_skip.
Qed.

Lemma findall_no_start (s : str) :
  ~ In LBRACE s -> ~ In PERCENT s ->
  Re.findall TranslationValidator.placeholder s = [].
Proof.
  intros H1 H2. unfold Re.findall.
  rewrite <- (app_nil_r s). rewrite scan_no_start by assumption. reflexivity.
Qed.

Lemma set_of_cons_nonempty (x : str) (l : list str) : set_of (x :: l) <> [].
Proof.
  intros H. assert (Hin : In x (set_of (x :: l))).
  { apply set_of_In. left. reflexivity. }
  rewrite H in Hin. destruct Hin.
Qed.

(** X10: a placeholder of the original that the translation drops is
    always reported.  When the original holds a brace token (after a
    text without '{' and '%') and the translation holds neither '{' nor
    '%', the variable check returns exactly one ERROR diagnostic for the
    record's key, and its message lists what is missing and no extra. *)
Theorem dropped_placeholder_is_reported {rt : PyRuntime}
        (trans : Translation.t) (a body b : str)
        (Ha1 : ~ In LBRACE a) (Ha2 : ~ In PERCENT a)
        (Hbody1 : body <> []) (Hbody2 : ~ In RBRACE body)
        (Ht1 : ~ In LBRACE (Translation.translated trans))
        (Ht2 : ~ In PERCENT (Translation.translated trans)) :
  let original := a ++ LBRACE :: body ++ RBRACE :: b in
  Re.findall TranslationValidator.placeholder original
  = (LBRACE :: body ++ [RBRACE])
      :: Re.findall TranslationValidator.placeholder b /\
  exists missing : list str,
    In (LBRACE :: body ++ [RBRACE]) missing /\
    TranslationValidator._check_variables trans original =
    [ValidationResult.mk ERROR
       (py "Variable mismatch in '" ++ Translation.key trans ++ py "'"
        ++ [LF] ++ py "  Missing: " ++ set_repr missing)
       (Some (Translation.key trans))].
Proof.
  intros original.
  pose proof (findall_brace_token a body b Ha1 Ha2 Hbody1 Hbody2) as Hf.
  split; [exact Hf|].
  unfold TranslationValidator._check_variables. subst original.
  rewrite Hf, (findall_no_start _ Ht1 Ht2). cbv zeta.
  set (toks := set_of ((LBRACE :: body ++ [RBRACE])
                         :: Re.findall TranslationValidator.placeholder b)).
  assert (Hne : toks <> []) by apply set_of_cons_nonempty.
  cbn [set_of].
  assert (Hd : set_diff toks [] = toks).
  { unfold set_diff. apply filter_all. reflexivity. }
  exists toks. split; [apply set_of_In; left; reflexivity|].
  destruct toks as [|t0 toks'] eqn:Et; [congruence|].
  cbn [set_eqb forallb set_mem existsb andb negb].
  rewrite Hd. cbn [truthy set_diff filter app].
  rewrite <- !app_assoc. reflexivity.
Qed.

Lemma dropped_placeholder_is_reported_witness :
  exists missing : list str,
    In (py "{code}") missing /\
    TranslationValidator._check_variables
      (rt := sample_runtime)
      (Translation.mk (py "err") (py "Error: {code}")
                      (py "Something went wrong!") (py "ui") [])
      (py "Error: {code}") =
    [ValidationResult.mk ERROR
       (py "Variable mismatch in 'err'" ++ [LF] ++ py "  Missing: "
        ++ @set_repr sample_runtime missing)
       (Some (py "err"))].
Proof.
  apply (dropped_placeholder_is_reported
           (rt := sample_runtime)
           (Translation.mk (py "err") (py "Error: {code}")
                           (py "Something went wrong!") (py "ui") [])
           (py "Error: ") (py "code") []);
    try discriminate; vm_compute; intuition discriminate.
Defined.

(** ** [merge]: diagnostics, counters, failure *)

Lemma validate_all_flat_map {rt : PyRuntime} (source_data : dict)
      (translations : list Translation.t) :
  TranslationMerger.validate_all source_data translations
  = flat_map
      (fun t => TranslationValidator.validate
                  t (dict_get_default source_data (Translation.key t) []))
      translations.
Proof.
  unfold TranslationMerger.validate_all.
  rewrite <- (app_nil_l (flat_map _ translations)).
  generalize (@nil ValidationResult.t).
  induction translations as [|t ts IH]; intros acc; cbn [fold_left flat_map].
  - rewrite app_nil_r. reflexivity.
  - rewrite IH, app_assoc. reflexivity.
Qed.

Lemma validate_parts {rt : PyRuntime} (t : Translation.t) (o : str)
      (d : ValidationResult.t) :
  In d (TranslationValidator.validate t o) <->
  In d (TranslationValidator._check_variables t o) \/
  In d (TranslationValidator._check_length t o) \/
  In d (TranslationValidator._check_special_chars t) \/
  In d (TranslationValidator._check_encoding t).
Proof.
  unfold TranslationValidator.validate. cbv zeta.
  rewrite !in_app_iff. cbn [In]. tauto.
Qed.

Lemma validate_key {rt : PyRuntime} (t : Translation.t) (o : str)
      (d : ValidationResult.t) :
  In d (TranslationValidator.validate t o) ->
  ValidationResult.key d = Some (Translation.key t).
Proof.
  rewrite validate_parts.
  unfold TranslationValidator._check_variables,
    TranslationValidator._check_length,
    TranslationValidator._check_special_chars,
    TranslationValidator._check_encoding. cbv zeta.
  intros [H|[H|[H|H]]].
  - destruct (negb _); [|destruct H].
    destruct H as [<-|[]]. reflexivity.
  - destruct (TranslationValidator.gt_times_1_5 _ _); [|destruct H].
    destruct H as [<-|[]]. reflexivity.
  - destruct (_ || _); [|destruct H].
    destruct H as [<-|[]]. reflexivity.
  - destruct (utf8_encode _); [destruct H|].
    destruct H as [<-|[]]. reflexivity.
Qed.

(** X11: the diagnostics [merge] collects are those of the records in
    the order of the records, each validated against the source value of
    its key (the empty string when the key is absent), and every
    diagnostic carries the key of the record it is about. *)
Theorem validate_all_in_record_order {rt : PyRuntime} (source_data : dict)
        (translations : list Translation.t) :
  TranslationMerger.validate_all source_data translations
  = flat_map
      (fun t => TranslationValidator.validate
                  t (match dict_get source_data (Translation.key t) with
                     | Some original => original
                     | None => []
                     end))
      translations /\
  forall d : ValidationResult.t,
    In d (TranslationMerger.validate_all source_data translations) ->
    exists t : Translation.t,
      In t translations /\
      ValidationResult.key d = Some (Translation.key t).
Proof.
  split; [apply validate_all_flat_map|].
  intros d Hd. rewrite validate_all_flat_map in Hd.
  apply in_flat_map in Hd. destruct Hd as (t & Ht & Hd).
  exists t. split; [exact Ht | exact (validate_key t _ d Hd)].
Qed.

Lemma validate_all_in_record_order_witness :
  exists t : Translation.t,
    In t [Translation.mk (py "err") (py "Error: {code}")
                         (py "Something went wrong!") (py "ui") []] /\
    Some (py "err") = Some (Translation.key t).
Proof.
  destruct (validate_all_in_record_order
              (rt := sample_runtime)
              [(py "err", py "Error: {code}")]
              [Translation.mk (py "err") (py "Error: {code}")
                              (py "Something went wrong!") (py "ui") []])
    as [_ H].
  apply (H (ValidationResult.mk WARNING
              (py "'err' is much longer (21 vs 13 chars) - may not fit in UI")
              (Some (py "err")))).
  vm_compute. right. left. reflexivity.
Defined.

Lemma merge_ok_inv {rt : PyRuntime} (source_file : bytes)
      (translations : list Translation.t) (validate : bool)
      (o : TranslationMerger.outcome) :
  TranslationMerger.merge source_file translations validate = Ok o ->
  exists source_data : dict,
    INIParser.parse source_file = Ok source_data /\
    NoDup (dict_keys source_data) /\
    INIParser.write (overlay source_data translations)
    = Ok (TranslationMerger.output_file o) /\
    TranslationMerger.merged_data o = overlay source_data translations /\
    TranslationMerger.validation_results o
    = (if validate
       then TranslationMerger.validate_all source_data translations
       else []) /\
    TranslationMerger.applied o
    = length (filter (fun t => dict_contains source_data (Translation.key t))
                     translations) /\
    TranslationMerger.not_found o
    = List.map Translation.key
        (filter (fun t => negb (dict_contains source_data (Translation.key t)))
                translations).
Proof.
  rewrite merge_closed_form. intros H.
  apply bind_ok in H. destruct H as (source_data & Hp & H).
  apply bind_ok in H. destruct H as (reported & _ & H).
  apply bind_ok in H. destruct H as (written & Hw & E).
  injection E as <-. exists source_data.
  split; [exact Hp|]. split; [exact (proj1 (parse_plain _ _ Hp))|].
  split; [exact Hw|]. repeat split.
Qed.

(** X12: a record whose key is not in the source is reported as not
    found and, when [merge] validates and its text is not empty, also
    draws the length warning, since it is measured against the empty
    string. *)
Theorem unknown_key_draws_length_warning {rt : PyRuntime}
        (source_file : bytes) (translations : list Translation.t)
        (o : TranslationMerger.outcome) (t : Translation.t)
        (Hmerge : TranslationMerger.merge source_file translations true = Ok o)
        (Hin : In t translations)
        (Hkey : ~ In (Translation.key t)
                     (dict_keys (TranslationMerger.merged_data o)))
        (Htext : Translation.translated t <> []) :
  In (Translation.key t) (TranslationMerger.not_found o) /\
  In (ValidationResult.mk WARNING
        (py "'" ++ Translation.key t ++ py "' is much longer ("
         ++ str_of_nat (length (Translation.translated t))
         ++ py " vs 0 chars) - may not fit in UI")
        (Some (Translation.key t)))
     (TranslationMerger.validation_results o).
Proof.
  apply merge_ok_inv in Hmerge.
  destruct Hmerge as (sd & _ & _ & _ & Hm & Hv & _ & Hnf).
  rewrite Hm, overlay_keys in Hkey.
  assert (Hc : dict_contains sd (Translation.key t) = false).
  { destruct (dict_contains sd (Translation.key t)) eqn:E; [|reflexivity].
    apply dict_contains_In in E. contradiction. }
  split.
  - rewrite Hnf. apply in_map, filter_In. split; [exact Hin|].
    rewrite Hc. reflexivity.
  - rewrite Hv, validate_all_flat_map. apply in_flat_map.
    exists t. split; [exact Hin|]. apply validate_parts. right. left.
    unfold dict_get_default. unfold dict_contains in Hc.
    destruct (dict_get sd (Translation.key t)); [discriminate|].
    unfold TranslationValidator._check_length. cbv zeta.
    assert (Hg : TranslationValidator.gt_times_1_5
                   (length (Translation.translated t)) (length (@nil char))
                 = true).
    { apply gt_times_1_5_nat. cbn [length].
      destruct (Translation.translated t); [congruence | cbn [length]; lia]. }
    rewrite Hg. left. reflexivity.
Qed.

Lemma unknown_key_draws_length_warning_witness :
  In (py "ghost")
     (TranslationMerger.not_found
        (TranslationMerger.mk_outcome
           [(py "a", py "1")]
           (TranslationMerger.validate_all
              (rt := sample_runtime) [(py "a", py "1")]
              [Translation.mk (py "ghost") [] (py "Boo") (py "ui") []])
           0 [py "ghost"] (py "a=1" ++ [CR; LF]))).
Proof.
  apply (unknown_key_draws_length_warning
           (rt := sample_runtime)
           (py "a=1" ++ [LF])
           [Translation.mk (py "ghost") [] (py "Boo") (py "ui") []]
           _ (Translation.mk (py "ghost") [] (py "Boo") (py "ui") [])).
  - reflexivity.
  - left. reflexivity.
  - vm_compute. intuition discriminate.
  - discriminate.
Defined.

(** X13: every record is either applied or reported: the number applied
    and the number of keys not found add up to the number of records,
    and no key reported as not found is a key of the merged map. *)
Theorem merge_counts_every_record {rt : PyRuntime} (source_file : bytes)
        (translations : list Translation.t) (validate : bool)
        (o : TranslationMerger.outcome)
        (Hmerge : TranslationMerger.merge source_file translations validate
                  = Ok o) :
  (TranslationMerger.applied o + length (TranslationMerger.not_found o)
   = length translations)%nat /\
  (forall k, In k (TranslationMerger.not_found o) ->
             ~ In k (dict_keys (TranslationMerger.merged_data o))) /\
  TranslationMerger.applied o
  = length (filter (fun t => dict_contains (TranslationMerger.merged_data o)
                                           (Translation.key t))
                   translations).
Proof.
  apply merge_ok_inv in Hmerge.
  destruct Hmerge as (sd & _ & _ & _ & Hm & _ & Ha & Hnf).
  rewrite Ha, Hnf, Hm, length_map. split; [apply filter_length|]. split.
  - intros k Hk. apply in_map_iff in Hk. destruct Hk as (t & <- & Ht).
    apply filter_In in Ht. destruct Ht as [_ Ht].
    rewrite overlay_keys, <- dict_contains_In.
    destruct (dict_contains sd (Translation.key t)); [discriminate|].
    discriminate.
  - f_equal. apply filter_ext. intros t.
    destruct (dict_contains sd (Translation.key t)) eqn:E.
    + symmetry. apply dict_contains_In. rewrite overlay_keys.
      apply dict_contains_In, E.
    + symmetry. destruct (dict_contains (overlay sd translations) _) eqn:E';
        [|reflexivity].
      apply dict_contains_In in E'. rewrite overlay_keys in E'.
      apply dict_contains_In in E'. congruence.
Qed.

Lemma merge_counts_every_record_witness :
  (1 + length (@nil str) = length [Translation.mk (py "a") (py "1") (py "X")
                                                  (py "general") []])%nat.
Proof.
  exact (proj1 (merge_counts_every_record
                  (rt := sample_runtime)
                  (py "a=1" ++ [LF] ++ py "b=2" ++ [LF])
                  [Translation.mk (py "a") (py "1") (py "X") (py "general") []]
                  true
                  (TranslationMerger.mk_outcome
                     [(py "a", py "X"); (py "b", py "2")] [] 1 []
                     (py "a=X" ++ [CR; LF] ++ py "b=2" ++ [CR; LF]))
                  eq_refl)).
Defined.










(** ** Line endings *)

Lemma universal_newlines_id (s : str) :
  ~ In CR s -> universal_newlines s = s.
Proof.
  induction s as [|c s IH]; intros Hn; [reflexivity|].
  cbn [universal_newlines].
  assert (E : (c =? CR) = false).
  { apply N.eqb_neq. intros ->. apply Hn. left. reflexivity. }
  rewrite E, IH; [reflexivity|]. intros H. apply Hn. right. exact H.
Qed.

Lemma startswith_translate_crlf (text : str) (p : char) :
  p <> LF -> p <> CR ->
  startswith (translate_crlf text) [p] = startswith text [p].
Proof.
  intros H1 H2. rewrite !startswith_single.
  destruct text as [|c text]; [reflexivity|].
  unfold translate_crlf. cbn [flat_map].
  destruct (c =? LF) eqn:E; cbn [app]; [|reflexivity].
  apply N.eqb_eq in E. subst c.
  transitivity false; [|symmetry]; apply N.eqb_neq; congruence.
Qed.

(** X15: a file saved with "\r\n" line ends is parsed to the same map as
    the same text saved with "\n" line ends. *)
Theorem parse_ignores_line_ending_style (text : str) (unix dos : bytes)
        (Htext : encodable text) (Hcr : ~ In CR text)
        (Hunix : utf8_encode text = Ok unix)
        (Hdos : utf8_encode (translate_crlf text) = Ok dos) :
  INIParser.parse dos = INIParser.parse unix.
Proof.
  assert (Hsame : INIParser.parse_text (translate_crlf text)
                  = INIParser.parse_text text).
  { unfold INIParser.parse_text.
    rewrite (universal_translate text Hcr), (universal_newlines_id text Hcr).
    reflexivity. }
  destruct (utf8_roundtrip text Htext) as (bs1 & He1 & Hd1).
  destruct (utf8_roundtrip _ (encodable_translate text Htext))
    as (bs2 & He2 & Hd2).
  rewrite Hunix in He1. injection He1 as <-.
  rewrite Hdos in He2. injection He2 as <-.
  unfold INIParser.parse.
  destruct (startswith text [BOM]) eqn:Eb.
  - rewrite startswith_single in Eb.
    destruct text as [|c text']; [discriminate|].
    apply N.eqb_eq in Eb. subst c.
    unfold translate_crlf in *. cbn [flat_map] in *.
    change (BOM =? LF) with false in *. cbn iota in *. cbn [app] in *.
    fold (translate_crlf text') in *.
    apply encodable_cons in Htext. destruct Htext as [_ Htext'].
    unfold INIParser.parse_text in Hsame.
    cbn [utf8_encode] in Hunix, Hdos.
    change (utf8_encode_char BOM) with (Ok [0xEF; 0xBB; 0xBF]) in Hunix, Hdos.
    cbn [bind] in Hunix, Hdos.
    destruct (utf8_roundtrip text' Htext') as (u & Hu & Hud).
    destruct (utf8_roundtrip _ (encodable_translate text' Htext'))
      as (w & Hw & Hwd).
    rewrite Hu in Hunix. rewrite Hw in Hdos. cbn [bind app] in Hunix, Hdos.
    injection Hunix as <-. injection Hdos as <-.
    unfold utf8_sig_decode.
    change ((0xEF =? 0xEF) && (0xBB =? 0xBB) && (0xBF =? 0xBF)) with true.
    cbn iota. rewrite Hud, Hwd. cbn [bind]. f_equal.
    unfold INIParser.parse_text.
    assert (Hcr' : ~ In CR text') by (intros H; apply Hcr; right; exact H).
    rewrite (universal_translate text' Hcr'), (universal_newlines_id text' Hcr').
    reflexivity.
  - rewrite (utf8_encode_no_bom text unix Eb Hunix), Hd1.
    rewrite (utf8_encode_no_bom (translate_crlf text) dos) ; [|
      rewrite startswith_translate_crlf by discriminate; exact Eb | exact Hdos].
    rewrite Hd2. cbn [bind]. f_equal. exact Hsame.
Qed.

Lemma parse_ignores_line_ending_style_witness :
  INIParser.parse (py "a=1" ++ [CR; LF] ++ py "b=2" ++ [CR; LF])
  = INIParser.parse (py "a=1" ++ [LF] ++ py "b=2" ++ [LF]).
Proof.
  apply (parse_ignores_line_ending_style
           (py "a=1" ++ [LF] ++ py "b=2" ++ [LF])).
  - unfold encodable. repeat constructor; discriminate.
  - vm_compute. intuition discriminate.
  - reflexivity.
  - reflexivity.
Defined.

(** ** TranslationProject *)

Lemma find_filter_other (k k' : str) (ts : list Translation.t) :
  k' <> k ->
  find (fun t => str_eqb (Translation.key t) k)
       (filter (fun t => negb (str_eqb (Translation.key t) k')) ts)
  = find (fun t => str_eqb (Translation.key t) k) ts.
Proof.
  intros Hne. induction ts as [|t ts IH]; [reflexivity|].
  cbn [filter find].
  destruct (str_eqb (Translation.key t) k') eqn:E'; cbn [negb find].
  - apply str_eqb_eq in E'.
    assert (E : str_eqb (Translation.key t) k = false)
      by (apply str_eqb_neq; congruence).
    rewrite E. exact IH.
  - destruct (str_eqb (Translation.key t) k); [reflexivity | exact IH].
Qed.

Lemma find_filter_same (k : str) (ts : list Translation.t) :
  find (fun t => str_eqb (Translation.key t) k)
       (filter (fun t => negb (str_eqb (Translation.key t) k)) ts)
  = None.
Proof.
  induction ts as [|t ts IH]; [reflexivity|]. cbn [filter].
  destruct (str_eqb (Translation.key t) k) eqn:E; cbn [negb find];
    [exact IH | rewrite E; exact IH].
Qed.

Lemma find_add_translation (ts : list Translation.t) (t : Translation.t)
      (k : str) :
  find (fun x => str_eqb (Translation.key x) k)
       (TranslationProject.add_translation ts t)
  = if str_eqb (Translation.key t) k then Some t
    else find (fun x => str_eqb (Translation.key x) k) ts.
Proof.
  unfold TranslationProject.add_translation. cbv zeta.
  rewrite find_app_tr. cbn [find].
  destruct (str_eqb (Translation.key t) k) eqn:E.
  - apply str_eqb_eq in E. subst k. rewrite find_filter_same. reflexivity.
  - apply str_eqb_neq in E. rewrite (find_filter_other k _ ts E).
    destruct (find _ ts); reflexivity.
Qed.

Lemma NoDup_keys_filter (f : Translation.t -> bool)
      (l : list Translation.t) :
  NoDup (List.map Translation.key l) ->
  NoDup (List.map Translation.key (filter f l)).
Proof.
  induction l as [|e l IH]; cbn [filter List.map]; intros H; [constructor|].
  inversion H as [|? ? Hn Hl]; subst.
  destruct (f e); [|apply IH, Hl].
  cbn [List.map]. constructor; [|apply IH, Hl].
  intros Hin. apply Hn. apply in_map_iff in Hin.
  destruct Hin as (x & Hx & Hin). apply filter_In in Hin.
  apply in_map_iff. exists x. tauto.
Qed.

Lemma add_translation_NoDup (ts : list Translation.t) (t : Translation.t) :
  NoDup (List.map Translation.key ts) ->
  NoDup (List.map Translation.key (TranslationProject.add_translation ts t)).
Proof.
  intros H. unfold TranslationProject.add_translation. cbv zeta.
  rewrite map_app. apply NoDup_app.
  - apply NoDup_keys_filter, H.
  - repeat constructor. intros [].
  - intros k Hk [<-|[]]. apply in_map_iff in Hk.
    destruct Hk as (x & Hx & Hin). apply filter_In in Hin.
    destruct Hin as [_ Hin]. apply negb_true_iff, str_eqb_neq in Hin.
    congruence.
Qed.

(** X16: a project filled by [add_translation] from an empty one never
    holds two records of one key, and for every key it holds exactly the
    record added last for that key; adding the same record twice in a
    row changes nothing. *)
Theorem add_translation_last_write_wins (added : list Translation.t) :
  let project := fold_left TranslationProject.add_translation added [] in
  NoDup (List.map Translation.key project) /\
  (forall k : str,
      find (fun t => str_eqb (Translation.key t) k) project
      = last_translation added k) /\
  (forall t : Translation.t,
      TranslationProject.add_translation
        (TranslationProject.add_translation project t) t
      = TranslationProject.add_translation project t).
Proof.
  cbv zeta. split; [|split].
  - assert (H : forall init, NoDup (List.map Translation.key init) ->
                NoDup (List.map Translation.key
                         (fold_left TranslationProject.add_translation
                                    added init))).
    { induction added as [|t added IH]; intros init Hi; [exact Hi|].
      cbn [fold_left]. apply IH, add_translation_NoDup, Hi. }
    apply H. constructor.
  - intros k.
    assert (H : forall init,
              find (fun t => str_eqb (Translation.key t) k)
                   (fold_left TranslationProject.add_translation added init)
              = match last_translation added k with
                | Some t => Some t
                | None => find (fun t => str_eqb (Translation.key t) k) init
                end).
    { induction added as [|t added IH]; intros init; [reflexivity|].
      cbn [fold_left]. rewrite IH, last_translation_cons, find_add_translation.
      destruct (last_translation added k); [reflexivity|].
      destruct (str_eqb (Translation.key t) k); reflexivity. }
    rewrite H. destruct (last_translation added k); reflexivity.
  - intros t. generalize (fold_left TranslationProject.add_translation added []).
    intros project. unfold TranslationProject.add_translation. cbv zeta.
    f_equal. rewrite filter_app. cbn [filter].
    rewrite str_eqb_refl. cbn [negb]. rewrite app_nil_r.
    induction project as [|x project IH]; [reflexivity|]. cbn [filter].
    destruct (negb (str_eqb (Translation.key x) (Translation.key t))) eqn:E;
      cbn [filter]; rewrite ?E, IH; reflexivity.
Qed.

Lemma counter_get_set (d : TranslationProject.counter) (k k' : str)
      (n default : nat) :
  TranslationProject.counter_get
    (TranslationProject.counter_set d k n) k' default
  = if str_eqb k k' then n else TranslationProject.counter_get d k' default.
Proof.
  induction d as [|[k0 n0] d IH];
    cbn [TranslationProject.counter_set TranslationProject.counter_get].
  - reflexivity.
  - destruct (str_eqb k0 k) eqn:E;
      cbn [TranslationProject.counter_get].
    + apply str_eqb_eq in E. subst k0. destruct (str_eqb k k'); reflexivity.
    + destruct (str_eqb k0 k') eqn:E'; [|exact IH].
      apply str_eqb_eq in E'. subst k0. rewrite (str_eqb_sym k k'), E.
      reflexivity.
Qed.

Lemma counter_set_sum (d : TranslationProject.counter) (k : str) :
  list_sum (List.map snd
              (TranslationProject.counter_set
                 d k (TranslationProject.counter_get d k 0 + 1)))
  = S (list_sum (List.map snd d)).
Proof.
  induction d as [|[k0 n0] d IH];
    cbn [TranslationProject.counter_set TranslationProject.counter_get].
  - reflexivity.
  - destruct (str_eqb k0 k); cbn [List.map snd].
    + unfold list_sum. cbn [fold_right]. lia.
    + unfold list_sum in *. cbn [fold_right]. rewrite IH. lia.
Qed.

(** X17: [get_statistics] reports as total the number of records, and
    for every category the number of records of that category; the
    counts of all categories add up to the total. *)
Theorem get_statistics_counts (translations : list Translation.t) :
  let stats := TranslationProject.get_statistics translations in
  fst stats = length translations /\
  (forall c : str,
      TranslationProject.counter_get (snd stats) c 0
      = length (filter (fun t => str_eqb (Translation.category t) c)
                       translations)) /\
  list_sum (List.map snd (snd stats)) = length translations.
Proof.
  unfold TranslationProject.get_statistics. cbv zeta. cbn [fst snd].
  split; [reflexivity|]. split.
  - intros c.
    assert (H : forall init,
              TranslationProject.counter_get
                (fold_left
                   (fun categories trans =>
                      TranslationProject.counter_set
                        categories (Translation.category trans)
                        (TranslationProject.counter_get
                           categories (Translation.category trans) 0 + 1))
                   translations init) c 0
              = (TranslationProject.counter_get init c 0
                 + length (filter (fun t => str_eqb (Translation.category t) c)
                                  translations))%nat).
    { induction translations as [|t ts IH]; intros init; cbn [fold_left filter].
      - rewrite Nat.add_0_r. reflexivity.
      - rewrite IH, counter_get_set.
        destruct (str_eqb (Translation.category t) c) eqn:E; cbn [length].
        + apply str_eqb_eq in E. rewrite E. lia.
        + reflexivity. }
    rewrite H. reflexivity.
  - assert (H : forall init,
              list_sum (List.map snd
                (fold_left
                   (fun categories trans =>
                      TranslationProject.counter_set
                        categories (Translation.category trans)
                        (TranslationProject.counter_get
                           categories (Translation.category trans) 0 + 1))
                   translations init))
              = (list_sum (List.map snd init) + length translations)%nat).
    { induction translations as [|t ts IH]; intros init; cbn [fold_left length].
      - rewrite Nat.add_0_r. reflexivity.
      - rewrite IH, counter_set_sum. lia. }
    rewrite H. reflexivity.
Qed.

(** ** GameDetector *)

(** X18: [find_game] returns the first of the common paths that exists
    and has a "data" directory, and nothing exactly when no common path
    is such; the localization directory of the path it returns lies
    under that existing "data" directory. *)
Theorem find_game_first_valid (path_exists : GameDetector.path -> bool) :
  match GameDetector.find_game path_exists with
  | Some p =>
      path_exists p = true /\ path_exists (p ++ [py "data"]) = true /\
      GameDetector.get_localization_path p
      = (p ++ [py "data"]) ++ [py "Localization"; py "english"] /\
      exists before after : list GameDetector.path,
        GameDetector.COMMON_PATHS = before ++ p :: after /\
        forall q, In q before ->
                  path_exists q = false \/ path_exists (q ++ [py "data"]) = false
  | None =>
      forall q, In q GameDetector.COMMON_PATHS ->
                path_exists q = false \/ path_exists (q ++ [py "data"]) = false
  end.
Proof.
  unfold GameDetector.find_game.
  assert (Hvalid : forall p,
             GameDetector.is_valid_game_path path_exists p = true <->
             path_exists p = true /\ path_exists (p ++ [py "data"]) = true).
  { intros p. unfold GameDetector.is_valid_game_path. cbv zeta.
    destruct (path_exists p), (path_exists (p ++ [py "data"])); cbn [negb];
      split; try tauto; try discriminate; intros [? ?]; discriminate. }
  assert (Hinvalid : forall p,
             GameDetector.is_valid_game_path path_exists p = false ->
             path_exists p = false \/ path_exists (p ++ [py "data"]) = false).
  { intros p. unfold GameDetector.is_valid_game_path. cbv zeta.
    destruct (path_exists p), (path_exists (p ++ [py "data"])); cbn [negb];
      auto. }
  generalize GameDetector.COMMON_PATHS. intros paths.
  induction paths as [|p paths IH]; cbn [GameDetector.find_game_from].
  - intros q [].
  - destruct (GameDetector.is_valid_game_path path_exists p) eqn:E.
    + apply Hvalid in E. destruct E as [E1 E2].
      split; [exact E1|]. split; [exact E2|].
      split; [unfold GameDetector.get_localization_path;
              rewrite <- !app_assoc; reflexivity|].
      exists [], paths. split; [reflexivity | intros q []].
    + destruct (GameDetector.find_game_from path_exists paths) as [r|].
      * destruct IH as (H1 & H2 & H3 & before & after & Hsplit & Hbefore).
        split; [exact H1|]. split; [exact H2|]. split; [exact H3|].
        exists (p :: before), after. split; [rewrite Hsplit; reflexivity|].
        intros q [<-|Hq]; [exact (Hinvalid _ E) | exact (Hbefore q Hq)].
      * intros q [<-|Hq]; [exact (Hinvalid _ E) | exact (IH q Hq)].
Qed.

Lemma find_game_first_valid_witness :
  GameDetector.find_game
    (fun p => match p with
              | drive :: _ => str_eqb drive (py "E:")
              | [] => false
              end)
  = Some [py "E:"; py "Games"; py "StarCitizen"; py "LIVE"] /\
  GameDetector.get_localization_path
    [py "E:"; py "Games"; py "StarCitizen"; py "LIVE"]
  = ([py "E:"; py "Games"; py "StarCitizen"; py "LIVE"] ++ [py "data"])
      ++ [py "Localization"; py "english"].
Proof.
  pose proof (find_game_first_valid
                (fun p => match p with
                          | drive :: _ => str_eqb drive (py "E:")
                          | [] => false
                          end)) as H.
  change (GameDetector.find_game
            (fun p => match p with
                      | drive :: _ => str_eqb drive (py "E:")
                      | [] => false
                      end))
    with (Some [py "E:"; py "Games"; py "StarCitizen"; py "LIVE"]) in H.
  destruct H as (_ & _ & Hloc & _).
  split; [reflexivity | exact Hloc].
Defined.

(* ================================================================== *)
(** * Part IV: [merge] from the source file to the written file *)
(* ================================================================== *)

(** ** The console and the write *)


















